(** * guard-form-build: the form builder and the form viewer

    A shallow embedding of the client-side logic of the form application:
    the field-sequence editor of [src/pages/FormBuilder.tsx], the type
    selector of [FormFieldBuilder], and the validation and answer handling
    of [src/pages/FormViewer.tsx].

    React state is modelled by explicit state passing: an updater
    [setX(prev => e)] becomes a function of [prev].  JavaScript values are
    modelled as follows.
    - A string is a [string]; every character stands for one code unit
      below 256, which covers all literals of the source.
    - [undefined] read from an object or an array is [None].
    - A [Record<string, V>] is a [gmap string V]; the keys that matter are
      field ids, never names inherited from [Object.prototype].
    - A thrown [TypeError] is the result [None] of a function into
      [option]. *)

From Stdlib Require Import ZArith String Ascii List Bool Lia.
From stdpp Require Import base option list gmap strings pretty.

Local Open Scope string_scope.
Local Open Scope Z_scope.

(** ** JavaScript runtime helpers *)

Module Js.

(** [WhiteSpace] and [LineTerminator] code units below 256: TAB, LF, VT,
    FF, CR, SP and NBSP.  These are what [String.prototype.trim] strips. *)
Definition is_whitespace (c : ascii) : bool :=
  let n := N_of_ascii c in
  ((9 <=? n) && (n <=? 13) || (n =? 32) || (n =? 160))%N.

Fixpoint trimStart (s : string) : string :=
  match s with
  | EmptyString => EmptyString
  | String c rest => if is_whitespace c then trimStart rest else s
  end.

Fixpoint trimEnd (s : string) : string :=
  match s with
  | EmptyString => EmptyString
  | String c rest =>
      match trimEnd rest with
      | EmptyString => if is_whitespace c then EmptyString else String c EmptyString
      | kept => String c kept
      end
  end.

(** [s.trim()] *)
Definition trim (s : string) : string := trimEnd (trimStart s).

(** [!!s] for a string: only the empty string is falsy. *)
Definition truthy_string (s : string) : bool := negb (String.eqb s "").

(** [Array.prototype.join] on an array of strings. *)
Fixpoint join (sep : string) (l : list string) : string :=
  match l with
  | [] => ""
  | [x] => x
  | x :: rest => x +:+ sep +:+ join sep rest
  end.

(** [[...s]] for a string [s]: one one-character string per code unit. *)
Fixpoint spread_string (s : string) : list string :=
  match s with
  | EmptyString => []
  | String c rest => String c EmptyString :: spread_string rest
  end.

(** *** Arrays

    An array is the list of its slots; a slot that holds [undefined] is
    [None].  A property whose name is not an array index (such as ["-1"])
    is not a slot: length, iteration, spreading and JSON encoding never see
    it, so it is left out of the model. *)

Section Arrays.
Context {A : Type}.

(** [a[i]]: [undefined] outside [0 .. length-1]. *)
Definition array_get (a : list (option A)) (i : Z) : option A :=
  if i <? 0 then None else mjoin (a !! Z.to_nat i).

(** [a[i] = v]: replaces a slot, grows the array when [i] is past the end,
    and writes a non-index property (no slot changes) when [i] is
    negative. *)
Definition array_set (a : list (option A)) (i : Z) (v : option A) : list (option A) :=
  if i <? 0 then a
  else if i <? Z.of_nat (length a) then <[Z.to_nat i := v]> a
  else a ++ replicate (Z.to_nat i - length a) None ++ [v].

Fixpoint findIndex_from (p : A → bool) (l : list A) (i : Z) : Z :=
  match l with
  | [] => -1
  | x :: rest => if p x then i else findIndex_from p rest (i + 1)
  end.

(** [l.findIndex(p)]: the first index whose element satisfies [p], or -1. *)
Definition findIndex (p : A → bool) (l : list A) : Z := findIndex_from p l 0.

End Arrays.

End Js.

(** ** The field schema (shared by builder and viewer) *)

Inductive FieldType :=
  | short_text | paragraph | multiple_choice | checkbox | dropdown | date | file_upload.

Global Instance FieldType_eq_dec : EqDecision FieldType.
Proof. solve_decision. Defined.

Record FormField := {
  id : string;
  type : FieldType;
  label : string;
  required : bool;
  options : option (list string);      (* options?: string[] *)
  placeholder : option string;         (* placeholder?: string *)
}.

Global Instance FormField_eq_dec : EqDecision FormField.
Proof. solve_decision. Defined.

(** [Partial<FormField>]: the outer [option] says whether the key is
    present in the update object.  The two optional attributes may be
    present with the value [undefined]. *)
Record FieldUpdates := {
  upd_id : option string;
  upd_type : option FieldType;
  upd_label : option string;
  upd_required : option bool;
  upd_options : option (option (list string));
  upd_placeholder : option (option string);
}.

(** [{ ...field, ...updates }] *)
Definition merge (field : FormField) (updates : FieldUpdates) : FormField :=
  {| id := default (id field) (upd_id updates);
     type := default (type field) (upd_type updates);
     label := default (label field) (upd_label updates);
     required := default (required field) (upd_required updates);
     options := default (options field) (upd_options updates);
     placeholder := default (placeholder field) (upd_placeholder updates) |}.

(** [['multiple_choice', 'checkbox', 'dropdown'].includes(value)] *)
Definition is_choice (value : FieldType) : bool :=
  match value with
  | multiple_choice | checkbox | dropdown => true
  | _ => false
  end.

(** ** The form builder: [FormBuilder.tsx] and [FormFieldBuilder] *)

Module Builder.

Record FormData := {
  title : string;
  description : string;
  fields : list FormField;
  is_published : bool;
}.

Inductive Direction := up | down.

(** Every editing operation is an updater
    [setFormData(prev => ({ ...prev, fields: e }))]: title, description and
    publish flag are copied, so the operations are given on the field
    sequence [prev.fields]. *)

(** [addField]; [now] is the value read from [Date.now()].  The template
    literal prints it in decimal (a time value is an integer of magnitude at
    most 8.64e15, far from where JavaScript switches to exponents). *)
Definition addField (now : Z) (prev : list FormField) : list FormField :=
  let newField :=
    {| id := "field_" +:+ pretty now;
       type := short_text;
       label := "";
       required := false;
       options := None;
       placeholder := Some "" |} in
  prev ++ [newField].

Definition updateField (fieldId : string) (updates : FieldUpdates)
    (prev : list FormField) : list FormField :=
  map (λ field, if String.eqb (id field) fieldId then merge field updates else field) prev.

Definition removeField (fieldId : string) (prev : list FormField) : list FormField :=
  List.filter (λ field, negb (String.eqb (id field) fieldId)) prev.

(** [moveField].  The working copy [fields] is a JavaScript array, so the
    result is a list of slots: the destructuring swap reads both slots
    first and then writes [fields[index]] and [fields[newIndex]] in that
    order.  The copy holds the fields of [prev], over which [findIndex]
    runs. *)
Definition moveField (fieldId : string) (direction : Direction)
    (prev : list FormField) : list (option FormField) :=
  let fields := Some <$> prev in
  let index := Js.findIndex (λ f, String.eqb (id f) fieldId) prev in
  let newIndex := match direction with up => index - 1 | down => index + 1 end in
  if (newIndex <? 0) || (newIndex >=? Z.of_nat (length fields)) then Some <$> prev
  else
    let rhs0 := Js.array_get fields newIndex in
    let rhs1 := Js.array_get fields index in
    Js.array_set (Js.array_set fields index rhs0) newIndex rhs1.

(** The [onValueChange] handler of the type selector in [FormFieldBuilder]
    builds this update object from the rendered [field]. *)
Definition typeChangeUpdates (field : FormField) (value : FieldType) : FieldUpdates :=
  let updates :=
    {| upd_id := None; upd_type := Some value; upd_label := None;
       upd_required := None; upd_options := None; upd_placeholder := None |} in
  (* Clear options when changing away from option-based types *)
  let updates :=
    if negb (is_choice value)
    then {| upd_id := upd_id updates; upd_type := upd_type updates;
            upd_label := upd_label updates; upd_required := upd_required updates;
            upd_options := Some None; upd_placeholder := upd_placeholder updates |}
    else updates in
  (* Add default options for option-based types; [!field.options] holds
     only for [undefined], an array is truthy even when empty *)
  let updates :=
    if is_choice value && negb (bool_decide (is_Some (options field)))
    then {| upd_id := upd_id updates; upd_type := upd_type updates;
            upd_label := upd_label updates; upd_required := upd_required updates;
            upd_options := Some (Some ["Option 1"; "Option 2"]);
            upd_placeholder := upd_placeholder updates |}
    else updates in
  updates.

(** The whole type-change path: [onUpdate(updates)] is
    [updateField(field.id, updates)]. *)
Definition onValueChange (field : FormField) (value : FieldType)
    (prev : list FormField) : list FormField :=
  updateField (id field) (typeChangeUpdates field value) prev.

(** *** Saving: [handleSave] *)

Record FormPayload := {
  payload_title : string;
  payload_description : string;
  payload_fields : list FormField;
  payload_is_published : bool;
  owner_id : string;
}.

(** The call sent to the [forms] table. *)
Inductive StoreCall :=
  | forms_update (formId : string) (formPayload : FormPayload)
  | forms_insert (formPayload : FormPayload).

(** [useParams().formId]: a missing or empty route parameter is falsy. *)
Definition has_formId (formId : option string) : bool :=
  match formId with Some i => Js.truthy_string i | None => false end.

(** The first half of [handleSave], up to the store call.  [user] is the
    result of [supabase.auth.getUser()].  [None] means that nothing is
    sent: the title is blank (the function returns early) or nobody is
    signed in (the error is thrown and caught). *)
Definition handleSave_call (publish : bool) (formId : option string)
    (user : option string) (formData : FormData) : option StoreCall :=
  if negb (Js.truthy_string (Js.trim (title formData))) then None
  else
    match user with
    | None => None
    | Some user_id =>
        let formPayload :=
          {| payload_title := title formData;
             payload_description := description formData;
             payload_fields := fields formData;
             payload_is_published := publish || is_published formData;
             owner_id := user_id |} in
        match formId with
        | Some i => if Js.truthy_string i then Some (forms_update i formPayload)
                    else Some (forms_insert formPayload)
        | None => Some (forms_insert formPayload)
        end
    end.

(** The second half: the local state once the store has answered.
    [accepted] is false when [result.error] is set.  A newly created form
    navigates away and leaves the state as it is. *)
Definition handleSave_settle (publish : bool) (formId : option string)
    (accepted : bool) (prev : FormData) : FormData :=
  if accepted && has_formId formId
  then {| title := title prev; description := description prev;
          fields := fields prev;
          is_published := publish || is_published prev |}
  else prev.

(** [handleSave(publish)] against a store that accepts or refuses calls. *)
Definition handleSave (publish : bool) (formId : option string)
    (user : option string) (store : StoreCall → bool)
    (formData : FormData) : option StoreCall * FormData :=
  match handleSave_call publish formId user formData with
  | None => (None, formData)
  | Some call => (Some call, handleSave_settle publish formId (store call) formData)
  end.

End Builder.

(** ** The form viewer: [FormViewer.tsx] *)

Module Viewer.

(** An answer value: text inputs, radio groups, selects and file inputs
    store a string, checkbox groups store an array of strings. *)
Inductive Answer :=
  | AStr (s : string)
  | AArr (l : list string).

Global Instance Answer_eq_dec : EqDecision Answer.
Proof. solve_decision. Defined.

(** [!!v]: an array is truthy even when empty. *)
Definition truthy (v : Answer) : bool :=
  match v with
  | AStr s => Js.truthy_string s
  | AArr _ => true
  end.

Definition isArray (v : Answer) : bool :=
  match v with AStr _ => false | AArr _ => true end.

(** [v.toString()]: an array prints its elements joined by commas. *)
Definition toString (v : Answer) : string :=
  match v with
  | AStr s => s
  | AArr l => Js.join "," l
  end.

(** [settings] is never read by the viewer and is left out. *)
Record Form := {
  form_id : string;
  form_title : string;
  form_description : string;
  fields : list FormField;
}.

Record ViewerState := {
  form : option Form;
  submitting : bool;
  submitted : bool;
  answers : gmap string Answer;
  errors : gmap string string;
  startTime : Z;
  userEmail : string;
  userName : string;
}.

Definition setAnswers (a : gmap string Answer) (st : ViewerState) : ViewerState :=
  {| form := form st; submitting := submitting st; submitted := submitted st;
     answers := a; errors := errors st; startTime := startTime st;
     userEmail := userEmail st; userName := userName st |}.

Definition setErrors (e : gmap string string) (st : ViewerState) : ViewerState :=
  {| form := form st; submitting := submitting st; submitted := submitted st;
     answers := answers st; errors := e; startTime := startTime st;
     userEmail := userEmail st; userName := userName st |}.

Definition setSubmitting (b : bool) (st : ViewerState) : ViewerState :=
  {| form := form st; submitting := b; submitted := submitted st;
     answers := answers st; errors := errors st; startTime := startTime st;
     userEmail := userEmail st; userName := userName st |}.

Definition setSubmitted (b : bool) (st : ViewerState) : ViewerState :=
  {| form := form st; submitting := submitting st; submitted := b;
     answers := answers st; errors := errors st; startTime := startTime st;
     userEmail := userEmail st; userName := userName st |}.

(** *** Validation *)

(** [!answers[k] || !answers[k].trim()] for a pseudo-field.  An array has
    no [trim] method: calling it throws. *)
Definition pseudo_missing (a : option Answer) : option bool :=
  match a with
  | None => Some true
  | Some v =>
      if negb (truthy v) then Some true
      else match v with
           | AStr s => Some (negb (Js.truthy_string (Js.trim s)))
           | AArr _ => None
           end
  end.

(** The two blocks that validate email and name for anonymous users,
    starting from the empty [newErrors]. *)
Definition pseudoFieldErrors (st : ViewerState) : option (gmap string string) :=
  newErrors ←
    (if negb (Js.truthy_string (userEmail st)) then
       missing ← pseudo_missing (answers st !! "user_email");
       Some (if missing : bool then <["user_email" := "Email is required"]> ∅ else ∅)
     else Some ∅);
  if negb (Js.truthy_string (userName st)) then
    missing ← pseudo_missing (answers st !! "user_name");
    Some (if missing : bool then <["user_name" := "Name is required"]> newErrors else newErrors)
  else Some newErrors.

(** The condition of the loop body:
    [!answer || (Array.isArray(answer) && answer.length === 0)
      || answer.toString().trim() === ''].
    For [undefined] the first disjunct decides. *)
Definition answer_missing (answer : option Answer) : bool :=
  match answer with
  | None => true
  | Some v =>
      negb (truthy v)
      || (isArray v && match v with AArr l => (length l =? 0)%nat | AStr _ => false end)
      || String.eqb (Js.trim (toString v)) ""
  end.

(** One round of [form.fields.forEach]. *)
Definition check_field (a : gmap string Answer) (newErrors : gmap string string)
    (field : FormField) : gmap string string :=
  if required field then
    let answer := a !! id field in
    if answer_missing answer
    then <[id field := "This field is required"]> newErrors
    else newErrors
  else newErrors.

(** [form?.fields]: no form, no rounds. *)
Definition form_fields (f : option Form) : list FormField :=
  match f with Some fm => fields fm | None => [] end.

(** [validateForm]: the new state (only [errors] is set) and the returned
    flag [Object.keys(newErrors).length === 0]. *)
Definition validateForm (st : ViewerState) : option (ViewerState * bool) :=
  newErrors ← pseudoFieldErrors st;
  let newErrors := foldl (check_field (answers st)) newErrors (form_fields (form st)) in
  Some (setErrors newErrors st, (size newErrors =? 0)%nat).

(** The earlier revision of the viewer has no pseudo-fields: its
    [validateForm] is the loop alone and cannot throw. *)
Definition validateForm_fieldsOnly (st : ViewerState) : ViewerState * bool :=
  let newErrors := foldl (check_field (answers st)) ∅ (form_fields (form st)) in
  (setErrors newErrors st, (size newErrors =? 0)%nat).

(** *** Submission *)

Record Submission := {
  sub_form_id : option string;
  sub_user_id : option string;
  sub_answers : gmap string Answer;
  time_taken : Z;
  user_agent : string;
  tab_switches : Z;
}.

(** What [handleSubmit] reads from outside the component. *)
Record Env := {
  formId : option string;      (* useParams() *)
  now : Z;                     (* Date.now() *)
  auth_user : option string;   (* supabase.auth.getUser() *)
  userAgent : string;          (* navigator.userAgent *)
  insert_accepted : bool;      (* no call of the try block fails *)
}.

(** [known || answers[k]] *)
Definition known_or (known : string) (a : option Answer) : option Answer :=
  if Js.truthy_string known then Some (AStr known) else a.

(** A property set to [undefined] is dropped when the row is encoded. *)
Definition with_property (k : string) (v : option Answer)
    (m : gmap string Answer) : gmap string Answer :=
  match v with Some a => <[k := a]> m | None => delete k m end.

(** [handleSubmit] with the table [form_responses] passed through.
    [validateForm] runs outside the [try] block, so its exception leaves
    the handler ([None]).  [Math.round(d / 1000)] of an integer [d] is
    [(d + 500) / 1000] rounded down. *)
Definition handleSubmit (env : Env) (st : ViewerState)
    (form_responses : list Submission) : option (ViewerState * list Submission) :=
  '(st, valid) ← validateForm st;
  if negb valid then Some (st, form_responses)
  else
    let timeTaken := (now env - startTime st + 500) / 1000 in
    let submissionData :=
      {| sub_form_id := formId env;
         sub_user_id := auth_user env;
         sub_answers :=
           with_property "user_name" (known_or (userName st) (answers st !! "user_name"))
             (with_property "user_email"
                (known_or (userEmail st) (answers st !! "user_email")) (answers st));
         time_taken := timeTaken;
         user_agent := userAgent env;
         tab_switches := 0 |} in
    if insert_accepted env
    then Some (setSubmitting false (setSubmitted true st), (form_responses ++ [submissionData])%list)
    else Some (setSubmitting false st, form_responses).

(** *** Answering *)

Definition updateAnswer (fieldId : string) (value : Answer) (st : ViewerState) : ViewerState :=
  let st' := setAnswers (<[fieldId := value]> (answers st)) st in
  (* Clear error when user starts typing *)
  if match errors st !! fieldId with Some m => Js.truthy_string m | None => false end
  then setErrors (delete fieldId (errors st)) st'
  else st'.

(** [answers[field.id] || []] *)
Definition currentOptions (field : FormField) (st : ViewerState) : Answer :=
  match answers st !! id field with
  | Some v => if truthy v then v else AArr []
  | None => AArr []
  end.

(** The [onCheckedChange] handler of the checkbox of option [opt] of a
    checkbox field.
    Spreading a string yields its characters; a string has no [filter]
    method, so deselecting over a stored string throws. *)
Definition onCheckedChange (field : FormField) (opt : string) (checked : bool)
    (st : ViewerState) : option ViewerState :=
  match currentOptions field st with
  | AArr l =>
      if checked
      then Some (updateAnswer (id field) (AArr (l ++ [opt])%list) st)
      else Some (updateAnswer (id field)
                   (AArr (List.filter (λ o, negb (String.eqb o opt)) l)) st)
  | AStr s =>
      if checked
      then Some (updateAnswer (id field) (AArr (Js.spread_string s ++ [opt])%list) st)
      else None
  end.

End Viewer.

(** ** Editing the options of a field: [FormFieldBuilder] *)

Module FieldEditor.

(** [l.filter((x, i) => p(x, i))], the index counted from [i]. *)
Fixpoint filter_index_from {A : Type} (p : A → Z → bool) (l : list A) (i : Z) : list A :=
  match l with
  | [] => []
  | x :: rest =>
      if p x i then x :: filter_index_from p rest (i + 1)
      else filter_index_from p rest (i + 1)
  end.

(** [['multiple_choice', 'checkbox', 'dropdown'].includes(field.type)]: the
    option editor is rendered only for these. *)
Definition hasOptions (field : FormField) : bool := is_choice (type field).

(** [field.options || []] *)
Definition currentOptions (field : FormField) : list string :=
  match options field with Some o => o | None => [] end.

(** The update object [{ options: o }]. *)
Definition options_update (o : list string) : FieldUpdates :=
  {| upd_id := None; upd_type := None; upd_label := None; upd_required := None;
     upd_options := Some (Some o); upd_placeholder := None |}.

(** [addOption]: the object handed to [onUpdate]. *)
Definition addOption (field : FormField) : FieldUpdates :=
  options_update (currentOptions field ++ [""])%list.

(** [updateOption]: the array [newOptions] handed to [onUpdate] as
    [{ options: newOptions }].  It is an array of slots, because the
    assignment [newOptions[optionIndex] = value] leaves holes when the index
    lies past the end. *)
Definition updateOption (field : FormField) (optionIndex : Z) (value : string)
    : list (option string) :=
  let newOptions := Some <$> currentOptions field in
  Js.array_set newOptions optionIndex (Some value).

(** [removeOption]: the object handed to [onUpdate]. *)
Definition removeOption (field : FormField) (optionIndex : Z) : FieldUpdates :=
  let newOptions :=
    filter_index_from (λ _ i, negb (i =? optionIndex)) (currentOptions field) 0 in
  options_update newOptions.

End FieldEditor.

(** ** The respondent's session: [checkUserSession] of [FormViewer.tsx] *)

Module Session.
Import Viewer.

Definition setUserEmail (e : string) (st : ViewerState) : ViewerState :=
  {| form := form st; submitting := submitting st; submitted := submitted st;
     answers := answers st; errors := errors st; startTime := startTime st;
     userEmail := e; userName := userName st |}.

Definition setUserName (n : string) (st : ViewerState) : ViewerState :=
  {| form := form st; submitting := submitting st; submitted := submitted st;
     answers := answers st; errors := errors st; startTime := startTime st;
     userEmail := userEmail st; userName := n |}.

(** [x || ''] for an optional string. *)
Definition or_empty (x : option string) : string :=
  match x with Some s => s | None => "" end.

(** [checkUserSession].  [user] is the signed-in user, if any, with the
    optional email; [profile_name] is [profile?.name] of the row read from
    [users]. *)
Definition checkUserSession (user : option (option string))
    (profile_name : option string) (st : ViewerState) : ViewerState :=
  match user with
  | Some email => setUserName (or_empty profile_name) (setUserEmail (or_empty email) st)
  | None => st
  end.

End Session.

(** ** The responses page: [FormResponses.tsx] *)

Module Responses.
Import Viewer.

(** A row of [form_responses] as the page keeps it.  [response_time_taken]
    is [metadata?.time_taken], a whole number of seconds when present.  The
    form is the one of the viewer; of its fields the page reads [id] and
    [label] only. *)
Record FormResponse := {
  response_id : string;
  response_answers : gmap string Answer;
  submitted_at : string;
  response_time_taken : option Z;
}.

Definition double_quote : string := String "034"%char EmptyString.
Definition line_feed : string := String "010"%char EmptyString.

(** [value || 'N/A'] followed by the conversion of the template literal. *)
Definition or_NA (a : option Answer) : string :=
  match a with
  | Some v => if truthy v then toString v else "N/A"
  | None => "N/A"
  end.

(** [metadata?.time_taken?.toString() || 'N/A'] *)
Definition time_cell (t : option Z) : string :=
  match t with
  | Some n => if Js.truthy_string (pretty n) then pretty n else "N/A"
  | None => "N/A"
  end.

(** The cell of one form field: an array is joined with [", "], anything
    else is [answer?.toString() || '']. *)
Definition field_cell (answer : option Answer) : string :=
  match answer with
  | Some (AArr l) => Js.join ", " l
  | Some (AStr s) => if Js.truthy_string s then s else ""
  | None => ""
  end.

Section CsvExport.
(** [format(new Date(s), 'yyyy-MM-dd HH:mm:ss')] of the date library. *)
Variable format_date : string → string.

Definition headers (fm : Form) : list string :=
  foldl (λ headers field, (headers ++ [label field])%list)
    ["Submitted At"; "Name"; "Email"; "Time Taken (seconds)"] (fields fm).

Definition response_row (fm : Form) (response : FormResponse) : list string :=
  let row :=
    [ format_date (submitted_at response);
      or_NA (response_answers response !! "user_name");
      or_NA (response_answers response !! "user_email");
      time_cell (response_time_taken response) ] in
  foldl (λ row field, (row ++ [field_cell (response_answers response !! id field)])%list)
    row (fields fm).

(** The table [csvData] of [exportToCSV]. *)
Definition csvData (fm : Form) (responses : list FormResponse) : list (list string) :=
  foldl (λ csvData response, (csvData ++ [response_row fm response])%list)
    [headers fm] responses.

Definition csvContent (data : list (list string)) : string :=
  Js.join line_feed
    (map (λ row, Js.join "," (map (λ cell, double_quote +:+ cell +:+ double_quote) row))
       data).

(** [exportToCSV]: the name and the content of the downloaded file, or
    [None] when the function returns without a download. *)
Definition exportToCSV (form : option Form) (responses : list FormResponse)
    : option (string * string) :=
  match form with
  | None => None
  | Some fm =>
      if (length responses =? 0)%nat then None
      else Some (form_title fm +:+ "_responses.csv", csvContent (csvData fm responses))
  end.

End CsvExport.

(** [avgTimeSpent] of the analytics header.  The sum of whole seconds is
    divided by the count and rounded by [Math.round], that is, to the
    nearest integer with halves going up; for sums below 2^51 the division
    in doubles rounds the same way as the exact quotient. *)
Definition avgTimeSpent (responses : list FormResponse) : Z :=
  if (0 <? length responses)%nat then
    let total :=
      foldl (λ acc r, acc + match response_time_taken r with
                            | Some t => t   (* [t || 0] is [t], also for 0 *)
                            | None => 0
                            end) 0 responses in
    (2 * total + Z.of_nat (length responses)) / (2 * Z.of_nat (length responses))
  else 0.

End Responses.

(** ** The signup trigger: [handle_new_user] of the migration *)

Module Signup.

(** The columns of [auth.users] that the trigger reads.  A SQL [NULL] is
    [None]; the metadata object maps a key to its text. *)
Record AuthUser := {
  new_id : string;
  new_email : option string;
  raw_user_meta_data : option (gmap string string);
}.

Record UserRow := {
  user_email : string;
  user_name : string;
}.

(** [meta->>key]: [NULL] for a [NULL] object or a missing key. *)
Definition json_text (meta : option (gmap string string)) (key : string) : option string :=
  match meta with Some m => m !! key | None => None end.

(** [split_part(s, delimiter, 1)]: the text before the first delimiter,
    the whole text when there is none. *)
Fixpoint split_part_first (delimiter : ascii) (s : string) : string :=
  match s with
  | EmptyString => EmptyString
  | String c rest =>
      if Ascii.eqb c delimiter then EmptyString
      else String c (split_part_first delimiter rest)
  end.

(** [COALESCE(a, b, c)] *)
Definition coalesce3 (a b c : option string) : option string :=
  match a with
  | Some _ => a
  | None => match b with Some _ => b | None => c end
  end.

(** The value computed for the column [name]. *)
Definition derived_name (new : AuthUser) : option string :=
  coalesce3 (json_text (raw_user_meta_data new) "name")
            (json_text (raw_user_meta_data new) "full_name")
            (split_part_first "@" <$> new_email new).

(** [handle_new_user] on the table [public.users], keyed by [id].  The
    insert fails ([None]) when a [NOT NULL] column would get [NULL] or when
    the primary key exists already. *)
Definition handle_new_user (new : AuthUser) (users : gmap string UserRow)
    : option (gmap string UserRow) :=
  email ← new_email new;
  name ← derived_name new;
  match users !! new_id new with
  | Some _ => None
  | None => Some (<[new_id new := {| user_email := email; user_name := name |}]> users)
  end.

End Signup.

(** * Vocabulary of the statements *)

(** Every code unit of the string is white space. *)
Fixpoint all_whitespace (s : string) : bool :=
  match s with
  | EmptyString => true
  | String c rest => Js.is_whitespace c && all_whitespace rest
  end.

(** The field at position [i] is [f], and no earlier field carries its id:
    an id resolves to this field.  This holds at every position of a
    sequence with pairwise distinct ids. *)
Definition first_with_id (l : list FormField) (i : nat) (f : FormField) : Prop :=
  l !! i = Some f ∧ ∀ j g, (j < i)%nat → l !! j = Some g → id g ≠ id f.

(** No field of the sequence carries the id. *)
Definition id_absent (fieldId : string) (l : list FormField) : Prop :=
  ∀ g, g ∈ l → id g ≠ fieldId.

(** The sequence with the entries at positions [i] and [j] exchanged. *)
Definition swap_at {A : Type} (i j : nat) (l : list A) : list A :=
  match l !! i, l !! j with
  | Some a, Some b => <[j := a]> (<[i := b]> l)
  | _, _ => l
  end.

(** The data-model invariant of a field: [options] is defined exactly for
    the three choice types. *)
Definition options_ok (f : FormField) : Prop :=
  is_Some (options f) ↔ is_choice (type f) = true.

(** Every field that shares the id of [field] has [options] defined
    whenever [field] has.  Trivial when ids are pairwise distinct. *)
Definition options_follow (field : FormField) (l : list FormField) : Prop :=
  ∀ g, g ∈ l → id g = id field → is_Some (options field) → is_Some (options g).

(** The id that [addField] generates at clock value [t]. *)
Definition generated_id (t : Z) : string := "field_" +:+ pretty t.

(** The payload carried by a call to the [forms] table. *)
Definition call_payload (c : Builder.StoreCall) : Builder.FormPayload :=
  match c with
  | Builder.forms_update _ formPayload => formPayload
  | Builder.forms_insert formPayload => formPayload
  end.

(** The message stored for a form field that fails validation. *)
Definition required_message : string := "This field is required".

(** The rule as the specification words it: the answer is absent, is an
    empty sequence, or is a string that is empty after trimming. *)
Definition blank_per_spec (a : option Viewer.Answer) : Prop :=
  a = None ∨ a = Some (Viewer.AArr []) ∨
  ∃ s, a = Some (Viewer.AStr s) ∧ Js.trim s = "".

(** The rule as the code decides it: the three cases of the specification,
    or a sequence whose only element is empty after trimming. *)
Definition blank_per_code (a : option Viewer.Answer) : Prop :=
  blank_per_spec a ∨ ∃ s, a = Some (Viewer.AArr [s]) ∧ Js.trim s = "".

(** A text input left empty: nothing stored, or a blank string. *)
Definition text_empty (a : option Viewer.Answer) : Prop :=
  a = None ∨ ∃ s, a = Some (Viewer.AStr s) ∧ Js.trim s = "".

(** Field [f] carries the id [k] and its round of the validation loop
    stores an error. *)
Definition field_fails (a : gmap string Viewer.Answer) (k : string)
    (f : FormField) : bool :=
  String.eqb (id f) k && required f && Viewer.answer_missing (a !! id f).

(** Two sample fields used to instantiate the statements. *)
Definition sample_text : FormField :=
  {| id := "field_1"; type := short_text; label := "Name"; required := true;
     options := None; placeholder := Some "" |}.

Definition sample_boxes : FormField :=
  {| id := "field_2"; type := checkbox; label := "Topics"; required := false;
     options := Some ["Option 1"; "Option 2"]; placeholder := Some "" |}.

(** A viewer showing the two sample fields to a signed-in respondent who
    has not answered anything yet. *)
Definition sample_viewer : Viewer.ViewerState :=
  {| Viewer.form :=
       Some {| Viewer.form_id := "form-1"; Viewer.form_title := "Survey";
               Viewer.form_description := "";
               Viewer.fields := [sample_text; sample_boxes] |};
     Viewer.submitting := false; Viewer.submitted := false;
     Viewer.answers := ∅; Viewer.errors := ∅; Viewer.startTime := 1000;
     Viewer.userEmail := "ann@example.org"; Viewer.userName := "Ann" |}.

Definition sample_env : Viewer.Env :=
  {| Viewer.formId := Some "form-1"; Viewer.now := 61000;
     Viewer.auth_user := Some "user-1"; Viewer.userAgent := "agent";
     Viewer.insert_accepted := true |}.

(** The row that [handleSubmit] sends for a validated state. *)
Definition submission_of (env : Viewer.Env) (st : Viewer.ViewerState) : Viewer.Submission :=
  {| Viewer.sub_form_id := Viewer.formId env;
     Viewer.sub_user_id := Viewer.auth_user env;
     Viewer.sub_answers :=
       Viewer.with_property "user_name"
         (Viewer.known_or (Viewer.userName st) (Viewer.answers st !! "user_name"))
         (Viewer.with_property "user_email"
            (Viewer.known_or (Viewer.userEmail st) (Viewer.answers st !! "user_email"))
            (Viewer.answers st));
     Viewer.time_taken := (Viewer.now env - Viewer.startTime st + 500) / 1000;
     Viewer.user_agent := Viewer.userAgent env;
     Viewer.tab_switches := 0 |}.

(** The sample viewer with the second box ticked. *)
Definition sample_ticked_viewer : Viewer.ViewerState :=
  Viewer.setAnswers {[ "field_2" := Viewer.AArr ["Option 2"] ]} sample_viewer.

(** The sample viewer for a respondent whose email and name are not known. *)
Definition sample_anonymous_viewer : Viewer.ViewerState :=
  Session.setUserName "" (Session.setUserEmail "" sample_viewer).

(** A required checkbox field whose first option was left without a text,
    and a viewer in which a known respondent has ticked just that option. *)
Definition sample_required_boxes : FormField :=
  {| id := "field_3"; type := checkbox; label := "Extras"; required := true;
     options := Some [""; "Option 2"]; placeholder := Some "" |}.

Definition sample_blank_viewer : Viewer.ViewerState :=
  {| Viewer.form :=
       Some {| Viewer.form_id := "form-2"; Viewer.form_title := "Order";
               Viewer.form_description := "";
               Viewer.fields := [sample_required_boxes] |};
     Viewer.submitting := false; Viewer.submitted := false;
     Viewer.answers := {[ "field_3" := Viewer.AArr [""] ]};
     Viewer.errors := ∅; Viewer.startTime := 1000;
     Viewer.userEmail := "ann@example.org"; Viewer.userName := "Ann" |}.

(** * Properties *)

(** ** Strings *)

Section JsFacts.

Lemma trimEnd_empty_iff (s : string) :
  Js.trimEnd s = "" ↔ all_whitespace s = true.
Proof.
  induction s as [|c rest IH]; simpl; [done|].
  destruct (Js.trimEnd rest) eqn:Hrest.
  - destruct (Js.is_whitespace c); simpl.
    + split; [intros _; by apply IH | done].
    + split; [discriminate | intros [=]].
  - split; [discriminate|].
    intros [_ Hws]%andb_prop. apply IH in Hws. discriminate.
Qed.

Lemma all_whitespace_trimStart (s : string) :
  all_whitespace (Js.trimStart s) = all_whitespace s.
Proof.
  induction s as [|c rest IH]; simpl; [done|].
  destruct (Js.is_whitespace c) eqn:Hc; simpl; [done|].
  by rewrite Hc.
Qed.

Lemma trim_empty_iff (s : string) :
  Js.trim s = "" ↔ all_whitespace s = true.
Proof.
  unfold Js.trim. rewrite trimEnd_empty_iff. by rewrite all_whitespace_trimStart.
Qed.

Lemma all_whitespace_app (s t : string) :
  all_whitespace (s +:+ t) = all_whitespace s && all_whitespace t.
Proof.
  induction s as [|c rest IH]; simpl; [done|].
  rewrite IH. by rewrite andb_assoc.
Qed.

Lemma trim_join_comma_empty_iff (l : list string) :
  Js.trim (Js.join "," l) = "" ↔ l = [] ∨ ∃ s, l = [s] ∧ Js.trim s = "".
Proof.
  destruct l as [|x [|y rest]].
  - split; [by left | done].
  - simpl. split.
    + intros H. right. by exists x.
    + intros [[=]|(s & [= ->] & H)]. done.
  - split.
    + intros H%trim_empty_iff. exfalso.
      change (Js.join "," (x :: y :: rest)) with (x +:+ "," +:+ Js.join "," (y :: rest)) in H.
      rewrite !all_whitespace_app in H. simpl in H.
      rewrite andb_false_r in H. discriminate.
    + intros [[=]|(s & [=] & _)].
Qed.

Lemma eqb_empty_iff (s : string) : String.eqb s "" = true ↔ s = "".
Proof. apply String.eqb_eq. Qed.

End JsFacts.

(** ** Arrays and [findIndex] *)

Section ArrayFacts.
Context {A : Type}.
Implicit Types (l : list A) (p : A → bool).

Lemma swap_at_lookup l (i j k : nat) :
  (i < length l)%nat → (j < length l)%nat →
  swap_at i j l !! k =
    if decide (k = j) then l !! i else if decide (k = i) then l !! j else l !! k.
Proof.
  intros Hi Hj. unfold swap_at.
  destruct (lookup_lt_is_Some_2 l i Hi) as [a Ha].
  destruct (lookup_lt_is_Some_2 l j Hj) as [b Hb].
  rewrite Ha, Hb.
  destruct (decide (k = j)) as [->|Hkj].
  - rewrite list_lookup_insert_eq; [done|]. by rewrite length_insert.
  - rewrite list_lookup_insert_ne by done.
    destruct (decide (k = i)) as [->|Hki].
    + by rewrite list_lookup_insert_eq.
    + by rewrite list_lookup_insert_ne.
Qed.

Lemma swap_at_length l (i j : nat) : length (swap_at i j l) = length l.
Proof.
  unfold swap_at. destruct (l !! i), (l !! j); try done.
  by rewrite !length_insert.
Qed.

Lemma findIndex_from_none p l (i : Z) :
  (∀ x, x ∈ l → p x = false) → Js.findIndex_from p l i = -1.
Proof.
  revert i. induction l as [|x rest IH]; intros i Hall; simpl; [done|].
  rewrite (Hall x) by apply list_elem_of_here.
  apply IH. intros y Hy. apply Hall. by apply list_elem_of_further.
Qed.

Lemma findIndex_from_first p l (n : nat) (x : A) (i : Z) :
  l !! n = Some x → p x = true →
  (∀ j y, (j < n)%nat → l !! j = Some y → p y = false) →
  Js.findIndex_from p l i = i + Z.of_nat n.
Proof.
  revert n i. induction l as [|y rest IH]; intros n i Hn Hp Hbefore; [done|].
  destruct n as [|n]; simpl in *.
  - injection Hn as ->. rewrite Hp. lia.
  - rewrite (Hbefore 0%nat y) by (done || lia).
    rewrite (IH n (i + 1)); [lia|done|done|].
    intros j z Hj Hz. apply (Hbefore (S j) z); [lia|done].
Qed.

Lemma array_get_fmap_Some l (n : nat) :
  Js.array_get (Some <$> l) (Z.of_nat n) = l !! n.
Proof.
  unfold Js.array_get.
  destruct (Z.ltb_spec (Z.of_nat n) 0) as [?|_]; [lia|].
  rewrite Nat2Z.id, list_lookup_fmap. by destruct (l !! n).
Qed.

Lemma array_set_fmap_Some (a : list (option A)) (n : nat) (v : option A) :
  (n < length a)%nat → Js.array_set a (Z.of_nat n) v = <[n := v]> a.
Proof.
  intros Hn. unfold Js.array_set.
  destruct (Z.ltb_spec (Z.of_nat n) 0) as [?|_]; [lia|].
  destruct (Z.ltb_spec (Z.of_nat n) (Z.of_nat (length a))) as [_|?]; [|lia].
  by rewrite Nat2Z.id.
Qed.

End ArrayFacts.

(** ** The field-sequence editor *)

Section BuilderFacts.
Import Builder.
Implicit Types (l prev : list FormField) (f g : FormField).

Lemma findIndex_id_absent (fieldId : string) l :
  id_absent fieldId l →
  Js.findIndex (λ f, String.eqb (id f) fieldId) l = -1.
Proof.
  intros Habs. apply findIndex_from_none.
  intros g Hg. apply String.eqb_neq. by apply Habs.
Qed.

Lemma findIndex_first_with_id l (i : nat) f :
  first_with_id l i f →
  Js.findIndex (λ g, String.eqb (id g) (id f)) l = Z.of_nat i.
Proof.
  intros [Hi Hbefore]. unfold Js.findIndex.
  rewrite (findIndex_from_first _ l i f 0 Hi); [lia|apply String.eqb_refl|].
  intros j g Hj Hg. apply String.eqb_neq. by eapply Hbefore.
Qed.

Lemma NoDup_first_with_id l (i : nat) f :
  NoDup (id <$> l) → l !! i = Some f → first_with_id l i f.
Proof.
  intros Hnd Hi. split; [done|].
  intros j g Hj Hg Heq.
  assert (j = i) as ->; [|lia].
  eapply NoDup_lookup; [exact Hnd| |];
    rewrite list_lookup_fmap; [by rewrite Hg; simpl; rewrite Heq | by rewrite Hi].
Qed.

Lemma updateField_absent (fieldId : string) (updates : FieldUpdates) l :
  id_absent fieldId l → updateField fieldId updates l = l.
Proof.
  intros Habs. unfold updateField.
  induction l as [|g rest IH]; [done|]. simpl.
  rewrite (proj2 (String.eqb_neq (id g) fieldId)) by (apply Habs, list_elem_of_here).
  f_equal. apply IH. intros h Hh. apply Habs. by apply list_elem_of_further.
Qed.

Lemma removeField_absent (fieldId : string) l :
  id_absent fieldId l → removeField fieldId l = l.
Proof.
  intros Habs. unfold removeField.
  induction l as [|g rest IH]; [done|]. simpl.
  rewrite (proj2 (String.eqb_neq (id g) fieldId)) by (apply Habs, list_elem_of_here).
  simpl. f_equal. apply IH. intros h Hh. apply Habs. by apply list_elem_of_further.
Qed.

Lemma moveField_up_absent (fieldId : string) l :
  id_absent fieldId l → moveField fieldId up l = Some <$> l.
Proof.
  intros Habs. unfold moveField. cbv zeta. by rewrite findIndex_id_absent.
Qed.

Lemma moveField_down_absent (fieldId : string) l :
  id_absent fieldId l →
  moveField fieldId down l =
    match l with [] => [] | _ :: rest => None :: (Some <$> rest) end.
Proof.
  intros Habs. unfold moveField. cbv zeta. rewrite findIndex_id_absent by done.
  destruct l as [|f rest]; [done|].
  rewrite length_fmap. simpl length.
  replace (-1 + 1) with 0 by lia.
  destruct (Z.geb_spec 0 (Z.of_nat (S (length rest)))) as [?|_]; [lia|].
  reflexivity.
Qed.

Lemma moveField_first_with_id (dir : Direction) l (i j : nat) f g :
  first_with_id l i f → l !! j = Some g →
  j = match dir with up => pred i | down => S i end →
  (dir = up → i ≠ 0%nat) →
  moveField (id f) dir l = Some <$> swap_at i j l.
Proof.
  intros Hfirst Hj -> Hup. pose proof Hfirst as [Hi _].
  unfold moveField. cbv zeta. rewrite (findIndex_first_with_id l i f Hfirst).
  pose proof (lookup_lt_Some _ _ _ Hi) as Hli.
  pose proof (lookup_lt_Some _ _ _ Hj) as Hlj.
  set (j := match dir with up => pred i | down => S i end) in *.
  assert (match dir with up => Z.of_nat i - 1 | down => Z.of_nat i + 1 end
          = Z.of_nat j) as ->.
  { subst j. destruct dir; [|lia]. specialize (Hup eq_refl). lia. }
  rewrite length_fmap.
  destruct (Z.ltb_spec (Z.of_nat j) 0) as [?|_]; [lia|].
  destruct (Z.geb_spec (Z.of_nat j) (Z.of_nat (length l))) as [?|_]; [lia|].
  simpl orb. cbv iota. cbv zeta.
  rewrite !array_get_fmap_Some, Hi, Hj.
  rewrite (array_set_fmap_Some (Some <$> l) i) by (by rewrite length_fmap).
  rewrite array_set_fmap_Some by (by rewrite length_insert, length_fmap).
  unfold swap_at. rewrite Hi, Hj.
  by rewrite !list_fmap_insert.
Qed.

End BuilderFacts.

(** ** Reordering: [moveField] *)

Section MoveField.
Import Builder.

(** C2, as amended.  Let [f] be the field at position [i] of the sequence
    and let no earlier field carry its id (as is the case when ids are
    pairwise distinct).  Then [moveField (id f)] returns the sequence
    unchanged for [up] at the first position and for [down] at the last
    position, and otherwise returns the sequence with the entries at [i] and
    the neighbouring position exchanged; by [swap_at_lookup] every other
    position keeps its entry. *)
Theorem moveField_boundary_or_swap (l : list FormField) (i : nat) (f : FormField) :
  first_with_id l i f →
  (i = 0%nat → moveField (id f) up l = Some <$> l) ∧
  (S i = length l → moveField (id f) down l = Some <$> l) ∧
  (i ≠ 0%nat → moveField (id f) up l = Some <$> swap_at i (pred i) l) ∧
  (S i ≠ length l → moveField (id f) down l = Some <$> swap_at i (S i) l).
Proof.
  intros Hfirst. pose proof Hfirst as [Hi _].
  pose proof (lookup_lt_Some _ _ _ Hi) as Hlen.
  repeat split.
  - intros ->. unfold moveField. cbv zeta.
    by rewrite (findIndex_first_with_id l 0 f Hfirst).
  - intros Hlast. unfold moveField. cbv zeta.
    rewrite (findIndex_first_with_id l i f Hfirst), length_fmap.
    destruct (Z.ltb_spec (Z.of_nat i + 1) 0) as [?|_]; [lia|].
    destruct (Z.geb_spec (Z.of_nat i + 1) (Z.of_nat (length l))) as [_|?]; [done|lia].
  - intros Hpos.
    destruct (lookup_lt_is_Some_2 l (pred i)) as [g Hg]; [lia|].
    by apply (moveField_first_with_id up l i (pred i) f g).
  - intros Hnotlast.
    destruct (lookup_lt_is_Some_2 l (S i)) as [g Hg]; [lia|].
    by apply (moveField_first_with_id down l i (S i) f g).
Qed.

(** C2, witness: the second of two fields with distinct ids. *)
Lemma moveField_boundary_or_swap_witness :
  first_with_id [sample_text; sample_boxes] 1 sample_boxes ∧
  moveField "field_2" up [sample_text; sample_boxes]
    = [Some sample_boxes; Some sample_text] ∧
  moveField "field_2" down [sample_text; sample_boxes]
    = [Some sample_text; Some sample_boxes].
Proof.
  assert (first_with_id [sample_text; sample_boxes] 1 sample_boxes) as Hfirst.
  { split; [reflexivity|].
    intros [|j] g Hj Hg; [|lia]. injection Hg as <-. discriminate. }
  split; [exact Hfirst|].
  destruct (moveField_boundary_or_swap _ _ _ Hfirst) as (_ & Hdown & Hup & _).
  split; [exact (Hup ltac:(discriminate)) | exact (Hdown eq_refl)].
Defined.

(** C2, counterexample: when the last field shares its id with an earlier
    field, [moveField] with [down] on the last field's id moves the earlier
    field, so the sequence changes. *)
Lemma moveField_down_last_shared_id :
  ¬ (∀ (l : list FormField) (f : FormField),
       last l = Some f → moveField (id f) down l = Some <$> l).
Proof.
  intros H.
  specialize (H [ {| id := "x"; type := short_text; label := "first";
                     required := false; options := None; placeholder := None |};
                  {| id := "x"; type := short_text; label := "second";
                     required := false; options := None; placeholder := None |} ]
                _ eq_refl).
  vm_compute in H. discriminate H.
Qed.

(** C10.  For an id that no field carries, [updateField], [removeField] and
    [moveField] with [up] return the sequence unchanged, but [moveField] with
    [down] on a non-empty sequence overwrites the first slot with
    [undefined]: [findIndex] yields -1, the guard sees [newIndex = 0] in
    range, and the swap stores [fields[-1]] in slot 0. *)
Theorem moveField_down_absent_id_clears_first_slot
    (fieldId : string) (updates : FieldUpdates) (f : FormField) (rest : list FormField) :
  id_absent fieldId (f :: rest) →
  updateField fieldId updates (f :: rest) = f :: rest ∧
  removeField fieldId (f :: rest) = f :: rest ∧
  moveField fieldId up (f :: rest) = Some <$> f :: rest ∧
  moveField fieldId down (f :: rest) = None :: (Some <$> rest) ∧
  moveField fieldId down (f :: rest) ≠ Some <$> f :: rest.
Proof.
  intros Habs.
  split; [by apply updateField_absent|].
  split; [by apply removeField_absent|].
  split; [by apply moveField_up_absent|].
  rewrite (moveField_down_absent fieldId (f :: rest) Habs).
  split; [done|]. simpl. discriminate.
Qed.

(** C10, the failing input: one field, and an id it does not carry. *)
Lemma moveField_down_absent_id_witness :
  id_absent "field_9" [sample_text] ∧
  moveField "field_9" down [sample_text] = [None].
Proof.
  assert (id_absent "field_9" [sample_text]) as Habs.
  { intros g Hg. apply list_elem_of_singleton in Hg. subst g. discriminate. }
  split; [exact Habs|].
  exact (proj1 (proj2 (proj2 (proj2
    (moveField_down_absent_id_clears_first_slot "field_9"
       (typeChangeUpdates sample_text date) sample_text [] Habs))))).
Defined.

End MoveField.

(** ** Changing the type of a field *)

Section TypeChange.
Import Builder.
Implicit Types (prev : list FormField) (field g : FormField) (value : FieldType).

Lemma merge_typeChange_options field g value :
  options (merge g (typeChangeUpdates field value)) =
    if is_choice value
    then (if bool_decide (is_Some (options field)) then options g
          else Some ["Option 1"; "Option 2"])
    else None.
Proof.
  unfold typeChangeUpdates, merge.
  destruct (is_choice value); simpl; [|done].
  by destruct (bool_decide (is_Some (options field))).
Qed.

Lemma merge_typeChange_rest field g value :
  let g' := merge g (typeChangeUpdates field value) in
  id g' = id g ∧ type g' = value ∧ label g' = label g ∧
  required g' = required g ∧ placeholder g' = placeholder g.
Proof.
  unfold typeChangeUpdates, merge.
  destruct (is_choice value); simpl;
    destruct (bool_decide (is_Some (options field))); simpl; done.
Qed.

Lemma onValueChange_lookup prev field value (i : nat) g :
  prev !! i = Some g →
  onValueChange field value prev !! i =
    Some (if String.eqb (id g) (id field)
          then merge g (typeChangeUpdates field value) else g).
Proof.
  intros Hi. unfold onValueChange, updateField.
  change (@map FormField FormField) with (@fmap list _ FormField FormField).
  by rewrite list_lookup_fmap, Hi.
Qed.

(** C3.  Let [field] be a field of the sequence, at position [i].  After
    the type selector of [field] is set to [value], position [i] holds a
    field that differs from [field] only in [type], which is [value], and in
    [options]: when [options] was undefined and [value] is a choice type,
    [options] is exactly [["Option 1"; "Option 2"]]; when [value] is not a
    choice type, [options] is undefined. *)
Theorem typeChange_seeds_or_clears_options prev (i : nat) field value :
  prev !! i = Some field →
  ∃ field',
    onValueChange field value prev !! i = Some field' ∧
    id field' = id field ∧ type field' = value ∧ label field' = label field ∧
    required field' = required field ∧ placeholder field' = placeholder field ∧
    (options field = None → is_choice value = true →
       options field' = Some ["Option 1"; "Option 2"]) ∧
    (is_choice value = false → options field' = None).
Proof.
  intros Hi. exists (merge field (typeChangeUpdates field value)).
  split.
  { rewrite (onValueChange_lookup prev field value i field Hi).
    by rewrite String.eqb_refl. }
  destruct (merge_typeChange_rest field field value) as (? & ? & ? & ? & ?).
  repeat (split; [done|]).
  rewrite merge_typeChange_options. split.
  - intros Hnone Hchoice. rewrite Hchoice, Hnone.
    rewrite bool_decide_eq_false_2; [done|]. by intros [? [=]].
  - by intros ->.
Qed.

(** C3, witness: a text field becomes a dropdown. *)
Lemma typeChange_seeds_or_clears_options_witness :
  [sample_text; sample_boxes] !! 0%nat = Some sample_text ∧
  ∃ field',
    onValueChange sample_text dropdown [sample_text; sample_boxes] !! 0%nat
      = Some field' ∧
    type field' = dropdown ∧ options field' = Some ["Option 1"; "Option 2"].
Proof.
  split; [reflexivity|].
  destruct (typeChange_seeds_or_clears_options
              [sample_text; sample_boxes] 0 sample_text dropdown eq_refl)
    as (field' & Hat & _ & Htype & _ & _ & _ & Hseed & _).
  exists field'. split; [exact Hat|]. split; [exact Htype|].
  exact (Hseed eq_refl eq_refl).
Defined.

End TypeChange.

(** ** The options invariant *)

Section OptionsInvariant.
Import Builder.
Implicit Types (prev : list FormField) (field g : FormField).

Lemma array_get_elem {A} (a : list (option A)) (i : Z) (x : A) :
  Js.array_get a i = Some x → Some x ∈ a.
Proof.
  unfold Js.array_get. destruct (i <? 0); [done|].
  destruct (a !! Z.to_nat i) as [o|] eqn:Hlook; [|done].
  simpl. intros ->. by eapply list_elem_of_lookup_2.
Qed.

Lemma array_set_elem {A} (a : list (option A)) (i : Z) (v o : option A) :
  o ∈ Js.array_set a i v → o ∈ a ∨ o = v ∨ o = None.
Proof.
  unfold Js.array_set. destruct (i <? 0); [by left|].
  destruct (i <? Z.of_nat (length a)).
  - intros [k Hk]%list_elem_of_lookup_1.
    destruct (decide (k = Z.to_nat i)) as [->|Hne].
    + destruct (decide (Z.to_nat i < length a)%nat).
      * rewrite list_lookup_insert_eq in Hk by done. right; left. congruence.
      * rewrite list_insert_ge in Hk by lia. left. by eapply list_elem_of_lookup_2.
    + rewrite list_lookup_insert_ne in Hk by done.
      left. by eapply list_elem_of_lookup_2.
  - rewrite !elem_of_app. intros [?|[Hrep|Hv]]; [by left| |].
    + right; right. by apply elem_of_replicate in Hrep as [-> _].
    + right; left. by apply list_elem_of_singleton in Hv.
Qed.

Lemma moveField_slot_from_prev (fieldId : string) (dir : Direction) prev g :
  Some g ∈ moveField fieldId dir prev → g ∈ prev.
Proof.
  assert (∀ h, Some h ∈ (Some <$> prev) → h ∈ prev) as Hback.
  { intros h (h' & [= ->] & Hh)%list_elem_of_fmap. done. }
  assert (∀ k h, Js.array_get (Some <$> prev) k = Some h → h ∈ prev) as Hget.
  { intros k h Hk. by apply Hback, (array_get_elem _ k). }
  unfold moveField. cbv zeta.
  destruct (_ || _); [by apply Hback|].
  intros [Hin|[Heq|[=]]]%array_set_elem.
  - apply array_set_elem in Hin as [Hin|[Heq|[=]]]; [by apply Hback|].
    symmetry in Heq. by eapply Hget.
  - symmetry in Heq. by eapply Hget.
Qed.

Lemma options_ok_addField (now : Z) prev :
  Forall options_ok prev → Forall options_ok (addField now prev).
Proof.
  intros Hprev. unfold addField. apply Forall_app. split; [done|].
  apply Forall_singleton. split; [by intros [? [=]]|discriminate].
Qed.

Lemma options_ok_removeField (fieldId : string) prev :
  Forall options_ok prev → Forall options_ok (removeField fieldId prev).
Proof.
  intros Hprev. unfold removeField. rewrite Forall_forall in *.
  intros g Hg. apply Hprev. apply list_elem_of_In in Hg.
  apply filter_In in Hg as [Hg _]. by apply list_elem_of_In.
Qed.

Lemma options_ok_onValueChange prev field (value : FieldType) :
  Forall options_ok prev → options_follow field prev →
  Forall options_ok (onValueChange field value prev).
Proof.
  intros Hprev Hfollow. rewrite Forall_forall in *.
  intros g' Hg'. unfold onValueChange, updateField in Hg'.
  apply list_elem_of_In, in_map_iff in Hg' as (g & <- & Hg%list_elem_of_In).
  destruct (String.eqb (id g) (id field)) eqn:Hid; [|by apply Hprev].
  apply String.eqb_eq in Hid.
  destruct (merge_typeChange_rest field g value) as (_ & Htype & _).
  unfold options_ok. rewrite Htype, merge_typeChange_options.
  destruct (is_choice value) eqn:Hchoice.
  - case_bool_decide as Hsome.
    + split; [done|]. intros _. by apply Hfollow.
    + split; [done|]. intros _. by eexists.
  - split; [by intros [? [=]]|discriminate].
Qed.

(** C4, as amended.  On a sequence whose fields all satisfy the options
    invariant, [addField], [removeField] and [moveField] keep the invariant
    for every field of the result (an [undefined] slot is no field), and so
    does a type change of [field], provided that the fields sharing the id
    of [field] have [options] defined whenever [field] has. *)
Theorem builder_operations_keep_options_ok prev :
  Forall options_ok prev →
  (∀ now, Forall options_ok (addField now prev)) ∧
  (∀ fieldId, Forall options_ok (removeField fieldId prev)) ∧
  (∀ fieldId dir g, Some g ∈ moveField fieldId dir prev → options_ok g) ∧
  (∀ field value, field ∈ prev → options_follow field prev →
     Forall options_ok (onValueChange field value prev)).
Proof.
  intros Hprev. split; [|split; [|split]].
  - intros now. by apply options_ok_addField.
  - intros fieldId. by apply options_ok_removeField.
  - intros fieldId dir g Hg%moveField_slot_from_prev.
    rewrite Forall_forall in Hprev. by apply Hprev.
  - intros field value _ Hfollow. by apply options_ok_onValueChange.
Qed.

Lemma NoDup_options_follow prev field :
  NoDup (id <$> prev) → field ∈ prev → options_follow field prev.
Proof.
  intros Hnd [i Hi]%list_elem_of_lookup_1 g [j Hj]%list_elem_of_lookup_1 Hid Hsome.
  assert (i = j) as ->.
  { eapply NoDup_lookup; [exact Hnd| |];
      rewrite list_lookup_fmap; [by rewrite Hi | by rewrite Hj; simpl; rewrite Hid]. }
  by simplify_eq.
Qed.

Lemma sample_fields_options_ok : Forall options_ok [sample_text; sample_boxes].
Proof.
  repeat constructor; try discriminate; try (by eexists); by intros [? [=]].
Qed.

(** C4, witness: the two sample fields, the text field becoming a
    dropdown. *)
Lemma builder_operations_keep_options_ok_witness :
  Forall options_ok [sample_text; sample_boxes] ∧
  Forall options_ok (onValueChange sample_text dropdown [sample_text; sample_boxes]).
Proof.
  split; [exact sample_fields_options_ok|].
  apply (builder_operations_keep_options_ok _ sample_fields_options_ok).
  - apply list_elem_of_here.
  - intros g _ _ [o Ho]. discriminate Ho.
Defined.

(** C4, counterexample: two fields share an id, the first is a checkbox
    field with options and the second a text field without.  Changing the
    first to a dropdown sends the update [{type: 'dropdown'}] to both, and
    the second becomes a dropdown whose options are undefined. *)
Lemma typeChange_breaks_options_ok_on_shared_id :
  ¬ (∀ prev field value,
       Forall options_ok prev → field ∈ prev →
       Forall options_ok (onValueChange field value prev)).
Proof.
  intros H.
  set (boxes := {| id := "x"; type := checkbox; label := ""; required := false;
                   options := Some ["a"]; placeholder := None |}).
  set (text := {| id := "x"; type := short_text; label := ""; required := false;
                  options := None; placeholder := None |}).
  specialize (H [boxes; text] boxes dropdown).
  assert (Forall options_ok [boxes; text]) as Hok.
  { repeat constructor; try discriminate; try (by eexists); by intros [? [=]]. }
  specialize (H Hok (list_elem_of_here _ _)).
  apply Forall_cons in H as [_ H]. apply Forall_cons in H as [[_ Hbad] _].
  destruct (Hbad eq_refl) as [o Ho]. discriminate Ho.
Qed.

End OptionsInvariant.

(** ** Adding a field *)

Section AddField.
Import Builder.

Lemma generated_id_inj (t u : Z) : generated_id t = generated_id u → t = u.
Proof.
  unfold generated_id. intros H.
  apply (inj (String.app "field_")) in H. by apply (inj pretty) in H.
Qed.

(** C6, as amended.  [addField] appends exactly one field and leaves the
    existing ones in place; the new field has type [short_text], is not
    required, and carries the id [field_<clock value>].  That id is new to
    the sequence exactly when no field carries it already, which is the
    case when every existing id was generated at another clock value. *)
Theorem addField_appends_default_field (now : Z) (prev : list FormField) :
  ∃ newField,
    addField now prev = (prev ++ [newField])%list ∧
    id newField = generated_id now ∧
    type newField = short_text ∧ required newField = false ∧
    label newField = "" ∧ options newField = None ∧
    (id newField ∉ (id <$> prev) ↔ id_absent (generated_id now) prev) ∧
    ((∀ g, g ∈ prev → ∃ t, id g = generated_id t ∧ t ≠ now) →
       (id newField ∉ (id <$> prev)) ∧
       (NoDup (id <$> prev) → NoDup (id <$> addField now prev))).
Proof.
  eexists. split; [reflexivity|]. simpl.
  repeat (split; [reflexivity|]).
  assert (generated_id now ∉ id <$> prev ↔ id_absent (generated_id now) prev)
    as Hfresh.
  { unfold id_absent. rewrite list_elem_of_fmap. split.
    - intros Hno g Hg Heq. apply Hno. by exists g.
    - intros Habs (g & Heq & Hg). by apply (Habs g). }
  split; [exact Hfresh|].
  intros Hearlier.
  assert (generated_id now ∉ id <$> prev) as Hnotin.
  { apply Hfresh. intros g Hg Heq.
    destruct (Hearlier g Hg) as (t & Ht & Hne).
    rewrite Ht in Heq. by apply generated_id_inj in Heq. }
  split; [exact Hnotin|].
  intros Hnd. unfold addField. rewrite fmap_app.
  apply NoDup_app. split; [done|]. split.
  - intros x Hx Hx'. apply list_elem_of_singleton in Hx'. by subst x.
  - apply NoDup_singleton.
Qed.

(** C6, witness: a second field added one millisecond after the first. *)
Lemma addField_appends_default_field_witness :
  (generated_id 6 ∉ (id <$> addField 5 [])) ∧
  NoDup (id <$> addField 6 (addField 5 [])).
Proof.
  destruct (addField_appends_default_field 6 (addField 5 []))
    as (newField & _ & Hid & _ & _ & _ & _ & _ & Hfresh).
  destruct Hfresh as [Hnew Hnodup].
  - intros g Hg. exists 5. apply list_elem_of_singleton in Hg. subst g.
    split; [reflexivity|discriminate].
  - split; [by rewrite <- Hid|].
    apply Hnodup. apply NoDup_singleton.
Defined.

(** C6, counterexample: two calls at the same clock value produce the same
    id twice. *)
Lemma addField_repeats_id_at_same_clock_value :
  ¬ (∀ (now : Z) (prev : list FormField),
       ∃ newField, addField now prev = (prev ++ [newField])%list ∧
                   id newField ∉ (id <$> prev)).
Proof.
  intros H. destruct (H 5 (addField 5 [])) as (newField & Heq & Hnew).
  apply app_inj_tail in Heq as [_ <-].
  apply Hnew. vm_compute. apply list_elem_of_here.
Qed.

End AddField.

(** ** Saving *)

Section Save.
Import Builder.

(** C9.  Whenever [handleSave] sends a call to the store, the payload's
    [is_published] is [publish || is_published] of the builder state, so a
    published state is never saved as unpublished; the local state is
    updated with the same disjunction, or left as it is.  A call is sent as
    soon as the title is not blank and a user is signed in. *)
Theorem handleSave_publish_monotone (publish : bool) (formId user : option string)
    (store : StoreCall → bool) (formData : FormData) :
  (∀ call, (handleSave publish formId user store formData).1 = Some call →
     payload_is_published (call_payload call) = publish || is_published formData) ∧
  (∀ call, (handleSave false formId user store formData).1 = Some call →
     is_published formData = true →
     payload_is_published (call_payload call) = true) ∧
  (is_published formData = true →
     is_published (handleSave publish formId user store formData).2 = true) ∧
  (∀ user_id, Js.truthy_string (Js.trim (title formData)) = true →
     user = Some user_id →
     ∃ call, (handleSave publish formId user store formData).1 = Some call).
Proof.
  assert (∀ p call, handleSave_call p formId user formData = Some call →
            payload_is_published (call_payload call) = p || is_published formData)
    as Hcall.
  { intros p call. unfold handleSave_call.
    destruct (negb _); [done|]. destruct user as [user_id|]; [|done].
    destruct formId as [i|]; [destruct (Js.truthy_string i)|];
      by intros [= <-]. }
  unfold handleSave. repeat split.
  - intros call. destruct (handleSave_call publish _ _ _) eqn:Hc; [|done].
    simpl. intros [= <-]. by apply Hcall.
  - intros call. destruct (handleSave_call false _ _ _) eqn:Hc; [|done].
    simpl. intros [= <-] Hpub. rewrite (Hcall false _ Hc). by rewrite Hpub.
  - intros Hpub. destruct (handleSave_call publish _ _ _); [|done].
    simpl. unfold handleSave_settle. destruct (_ && _); [|done].
    simpl. rewrite Hpub. apply orb_true_r.
  - intros user_id Htitle ->. unfold handleSave_call. rewrite Htitle. simpl.
    destruct formId as [i|]; [destruct (Js.truthy_string i)|]; by eexists.
Qed.

End Save.

(** ** Validation *)

Section Validation.
Import Viewer.
Implicit Types (st : ViewerState) (a : gmap string Answer) (f g : FormField).

Lemma answer_missing_iff (o : option Answer) :
  answer_missing o = true ↔ blank_per_code o.
Proof.
  unfold blank_per_code, blank_per_spec.
  destruct o as [[s|l]|]; simpl.
  - unfold Js.truthy_string. rewrite negb_involutive, orb_false_r.
    rewrite orb_true_iff, !eqb_empty_iff. split.
    + intros [->|Htrim]; left; right; right; by eexists.
    + intros [[[=]|[[=]|(s' & [= <-] & Htrim)]]|(s' & [=] & _)]. by right.
  - rewrite orb_true_iff, Nat.eqb_eq, eqb_empty_iff, trim_join_comma_empty_iff.
    split.
    + intros [Hlen|[->|(s & -> & Htrim)]].
      * apply nil_length_inv in Hlen as ->. by left; right; left.
      * by left; right; left.
      * right. by exists s.
    + intros [[[=]|[[= ->]|(s' & [=] & _)]]|(s' & [= ->] & Htrim)].
      * by left.
      * right; right. by exists s'.
  - split; [by intros _; left; left | done].
Qed.

Lemma check_fields_lookup a (l : list FormField) (acc : gmap string string) (k : string) :
  foldl (check_field a) acc l !! k =
    if existsb (field_fails a k) l then Some required_message else acc !! k.
Proof.
  revert acc. induction l as [|f rest IH]; intros acc; simpl; [done|].
  rewrite IH. destruct (existsb (field_fails a k) rest); [by rewrite orb_true_r|].
  rewrite orb_false_r. unfold check_field, field_fails.
  destruct (String.eqb_spec (id f) k) as [<-|Hne]; simpl.
  - destruct (required f); simpl; [|done].
    destruct (answer_missing (a !! id f)); [|done].
    by rewrite lookup_insert_eq.
  - destruct (required f); [|done].
    destruct (answer_missing (a !! id f)); [|done].
    by rewrite lookup_insert_ne.
Qed.

Lemma existsb_field_fails a (k : string) (l : list FormField) :
  existsb (field_fails a k) l = true ↔
  ∃ g, g ∈ l ∧ id g = k ∧ required g = true ∧ answer_missing (a !! k) = true.
Proof.
  rewrite existsb_exists. unfold field_fails. split.
  - intros (g & Hg%list_elem_of_In & H).
    apply andb_prop in H as [[Hid%String.eqb_eq Hreq]%andb_prop Hmiss].
    exists g. by rewrite <- Hid.
  - intros (g & Hg%list_elem_of_In & <- & Hreq & Hmiss).
    exists g. split; [done|]. by rewrite String.eqb_refl, Hreq, Hmiss.
Qed.

Lemma validateForm_unfold st (perr : gmap string string) :
  pseudoFieldErrors st = Some perr →
  validateForm st =
    Some (setErrors (foldl (check_field (answers st)) perr (form_fields (form st))) st,
          (size (foldl (check_field (answers st)) perr (form_fields (form st))) =? 0)%nat).
Proof. intros Hperr. unfold validateForm. by rewrite Hperr. Qed.

Lemma pseudoFieldErrors_known st :
  Js.truthy_string (userEmail st) = true → Js.truthy_string (userName st) = true →
  pseudoFieldErrors st = Some ∅.
Proof. intros He Hn. unfold pseudoFieldErrors. by rewrite He, Hn. Qed.

Lemma pseudoFieldErrors_keys st (perr : gmap string string) (k : string) :
  pseudoFieldErrors st = Some perr → is_Some (perr !! k) →
  k = "user_email" ∨ k = "user_name".
Proof.
  unfold pseudoFieldErrors. intros Hperr [m Hm].
  destruct (negb (Js.truthy_string (userEmail st)));
    destruct (negb (Js.truthy_string (userName st)));
    repeat (destruct (pseudo_missing _) as [[]|]; simpl in Hperr);
    simplify_eq/=;
    repeat (apply lookup_insert_Some in Hm as [[<- _]|[_ Hm]]; [by auto|]);
    by rewrite ?lookup_empty in Hm.
Qed.

Lemma pseudoFieldErrors_returns st :
  (∀ l, answers st !! "user_email" ≠ Some (AArr l)) →
  (∀ l, answers st !! "user_name" ≠ Some (AArr l)) →
  is_Some (pseudoFieldErrors st).
Proof.
  intros Hemail Hname. unfold pseudoFieldErrors, pseudo_missing.
  destruct (negb (Js.truthy_string (userEmail st)));
    destruct (negb (Js.truthy_string (userName st)));
    destruct (answers st !! "user_email") as [[s|l]|] eqn:He;
    destruct (answers st !! "user_name") as [[s'|l']|] eqn:Hn;
    simpl; try (by eexists);
    try (by destruct (Hemail l)); try (by destruct (Hname l'));
    repeat (match goal with |- context [negb ?b] => destruct b; simpl end);
    by eexists.
Qed.

(** For a known respondent the earlier revision of [validateForm] computes
    the same result. *)
Lemma validateForm_known_fieldsOnly st :
  Js.truthy_string (userEmail st) = true → Js.truthy_string (userName st) = true →
  validateForm st = Some (validateForm_fieldsOnly st).
Proof.
  intros He Hn.
  by rewrite (validateForm_unfold st ∅ (pseudoFieldErrors_known st He Hn)).
Qed.

Lemma truthy_string_false_iff (s : string) : Js.truthy_string s = false ↔ s = "".
Proof. unfold Js.truthy_string. rewrite negb_false_iff. apply String.eqb_eq. Qed.

Lemma pseudo_missing_cases (a : option Answer) :
  match pseudo_missing a with
  | Some b => (b = true ↔ text_empty a) ∧ ∀ l, a ≠ Some (AArr l)
  | None => ∃ l, a = Some (AArr l)
  end.
Proof.
  unfold pseudo_missing, text_empty.
  destruct a as [[s|l]|]; simpl.
  - destruct (Js.truthy_string s) eqn:Hs; simpl.
    + split; [|done]. rewrite negb_true_iff, truthy_string_false_iff. split.
      * intros Htrim. right. by exists s.
      * by intros [[=]|(s' & [= <-] & Htrim)].
    + split; [|done]. split; [|done]. intros _. right. exists s. split; [done|].
      by apply truthy_string_false_iff in Hs as ->.
  - by exists l.
  - split; [|done]. split; [by left|done].
Qed.

(** The error map that the two pseudo-field blocks build from their two
    verdicts. *)
Lemma pseudoFieldErrors_Some st (perr : gmap string string) :
  pseudoFieldErrors st = Some perr →
  ∃ e n : bool,
    perr = (if n then <["user_name" := "Name is required"]>
                        (if e then {[ "user_email" := "Email is required" ]} else ∅)
            else (if e then {[ "user_email" := "Email is required" ]} else ∅)) ∧
    (e = true ↔ userEmail st = "" ∧ text_empty (answers st !! "user_email")) ∧
    (n = true ↔ userName st = "" ∧ text_empty (answers st !! "user_name")).
Proof.
  unfold pseudoFieldErrors.
  pose proof (pseudo_missing_cases (answers st !! "user_email")) as He.
  pose proof (pseudo_missing_cases (answers st !! "user_name")) as Hn.
  destruct (Js.truthy_string (userEmail st)) eqn:Hue;
    destruct (Js.truthy_string (userName st)) eqn:Hun; simpl.
  - intros [= <-]. exists false, false. split; [done|].
    split; (split; [done|]); intros [Hz _];
      apply truthy_string_false_iff in Hz; congruence.
  - destruct (pseudo_missing (answers st !! "user_name")) as [n|]; [|done].
    simpl. intros [= <-]. exists false, n. split; [by destruct n|].
    apply truthy_string_false_iff in Hun. destruct Hn as [Hn _]. split.
    + split; [done|]. intros [Hz _]. apply truthy_string_false_iff in Hz. congruence.
    + rewrite Hn. by intuition.
  - destruct (pseudo_missing (answers st !! "user_email")) as [e|]; [|done].
    simpl. intros [= <-]. exists e, false. split; [by destruct e|].
    apply truthy_string_false_iff in Hue. destruct He as [He _]. split.
    + rewrite He. by intuition.
    + split; [done|]. intros [Hz _]. apply truthy_string_false_iff in Hz. congruence.
  - destruct (pseudo_missing (answers st !! "user_email")) as [e|]; [|done].
    simpl.
    destruct (pseudo_missing (answers st !! "user_name")) as [n|]; [|done].
    simpl. intros [= <-]. exists e, n. split; [by destruct e, n|].
    apply truthy_string_false_iff in Hue, Hun.
    destruct He as [He _], Hn as [Hn _]. rewrite He, Hn. by intuition.
Qed.

Lemma pseudoFieldErrors_None st :
  pseudoFieldErrors st = None ↔
  (userEmail st = "" ∧ ∃ l, answers st !! "user_email" = Some (AArr l)) ∨
  (userName st = "" ∧ ∃ l, answers st !! "user_name" = Some (AArr l)).
Proof.
  unfold pseudoFieldErrors.
  pose proof (pseudo_missing_cases (answers st !! "user_email")) as He.
  pose proof (pseudo_missing_cases (answers st !! "user_name")) as Hn.
  destruct (Js.truthy_string (userEmail st)) eqn:Hue;
    destruct (Js.truthy_string (userName st)) eqn:Hun; simpl;
    try (destruct (pseudo_missing (answers st !! "user_email")) as [e|]; simpl);
    try (destruct (pseudo_missing (answers st !! "user_name")) as [n|]; simpl);
    try apply truthy_string_false_iff in Hue;
    try apply truthy_string_false_iff in Hun;
    (split; [try done; by auto|]);
    intros [[Hz [l Hl]]|[Hz [l Hl]]]; try done;
    try (apply truthy_string_false_iff in Hz; congruence);
    try (by destruct He as [_ He]; destruct (He l));
    try (by destruct Hn as [_ Hn]; destruct (Hn l)).
Qed.

Lemma pseudoFieldErrors_lookup st (perr : gmap string string) (k : string) :
  pseudoFieldErrors st = Some perr →
  is_Some (perr !! k) ↔
    (k = "user_email" ∧ userEmail st = "" ∧ text_empty (answers st !! "user_email")) ∨
    (k = "user_name" ∧ userName st = "" ∧ text_empty (answers st !! "user_name")).
Proof.
  intros (e & n & -> & He & Hn)%pseudoFieldErrors_Some.
  rewrite <- He, <- Hn. clear He Hn.
  destruct e, n; split.
  all: try (intros [m Hm]).
  all: try (intros [[-> ?]|[-> ?]]).
  all: try done.
  all: try (by eexists).
  all: try (apply lookup_insert_Some in Hm as [[<- _]|[_ Hm]]; [by right|]).
  all: try (apply lookup_singleton_Some in Hm as [<- _]; by left).
  all: by rewrite lookup_empty in Hm.
Qed.

(** C1.  Let the pseudo-field checks pass through without an exception and
    store nothing under the id of field [f], and let the fields that share
    the id of [f] (none when ids are distinct) have the same [required]
    flag.  Then [validateForm] returns and leaves the answers alone.  On
    every answer but one kind it follows the rule: an error is stored under
    the id of [f] if and only if [f] is required and the answer is absent,
    an empty sequence, or a string that is empty after trimming; a field
    that is not required never gets an error, a required field without an
    answer gets it, and a sequence of two or more entries never does.  The
    one kind is a sequence whose only entry is empty after trimming: the
    array test of the loop lets it pass, being not empty, but the string
    conversion of the last disjunct turns it into a blank string, so a
    required field gets the error and validation fails. *)
Theorem validateForm_blank_singleton_slip st (fm : Form) (perr : gmap string string) f :
  form st = Some fm →
  pseudoFieldErrors st = Some perr →
  f ∈ fields fm →
  perr !! id f = None →
  (∀ g, g ∈ fields fm → id g = id f → required g = required f) →
  ∃ st' ok,
    validateForm st = Some (st', ok) ∧
    answers st' = answers st ∧
    ((∀ s, answers st !! id f = Some (AArr [s]) → Js.trim s ≠ "") →
       (is_Some (errors st' !! id f) ↔
          required f = true ∧ blank_per_spec (answers st !! id f))) ∧
    (required f = false → errors st' !! id f = None) ∧
    (required f = true → answers st !! id f = None →
       errors st' !! id f = Some required_message) ∧
    (∀ s1 s2 rest, answers st !! id f = Some (AArr (s1 :: s2 :: rest)) →
       errors st' !! id f = None) ∧
    (∀ s, required f = true → answers st !! id f = Some (AArr [s]) →
       Js.trim s = "" →
       errors st' !! id f = Some required_message ∧ ok = false ∧
       ¬ blank_per_spec (answers st !! id f)).
Proof.
  intros Hform Hperr Hf Hfree Hsame.
  eexists _, _. split; [by apply validateForm_unfold|].
  split; [done|]. simpl. rewrite Hform. simpl.
  rewrite check_fields_lookup, Hfree.
  assert (existsb (field_fails (answers st) (id f)) (fields fm) = true ↔
          required f = true ∧ blank_per_code (answers st !! id f)) as Hiff.
  { rewrite existsb_field_fails, <- answer_missing_iff. split.
    - intros (g & Hg & Hid & Hreq & Hmiss). by rewrite <- (Hsame g Hg Hid).
    - intros [Hreq Hmiss]. by exists f. }
  split; [|split; [|split; [|split]]].
  - intros Hnoslip.
    assert (blank_per_code (answers st !! id f) ↔ blank_per_spec (answers st !! id f))
      as Hsame_rule.
    { split; [|by left]. intros [?|(s & Hs & Htrim)]; [done|].
      by destruct (Hnoslip s Hs). }
    rewrite <- Hsame_rule, <- Hiff.
    destruct (existsb _ _); split; try done; try (by eexists); by intros [? [=]].
  - intros Hnot. destruct (existsb _ _) eqn:Hex; [|done].
    destruct Hiff as [Hiff _]. destruct (Hiff eq_refl) as [Hreq _]. congruence.
  - intros Hreq Habsent. destruct (existsb _ _) eqn:Hex; [done|].
    assert (false = true) as [=]. apply Hiff.
    split; [done|]. rewrite Habsent. by left; left.
  - intros s1 s2 rest Hans. destruct (existsb _ _) eqn:Hex; [|done].
    destruct Hiff as [Hiff _]. destruct (Hiff eq_refl) as [_ Hblank].
    rewrite Hans in Hblank.
    by destruct Hblank as [[[=]|[[=]|(s & [=] & _)]]|(s & [=] & _)].
  - intros s Hreq Hans Htrim.
    assert (existsb (field_fails (answers st) (id f)) (fields fm) = true) as Hex.
    { apply Hiff. split; [done|]. right. by exists s. }
    rewrite Hex. split; [done|]. split.
    + apply Nat.eqb_neq. intros Hsize%map_size_empty_iff.
      apply (f_equal (lookup (id f))) in Hsize.
      rewrite check_fields_lookup, Hex, lookup_empty in Hsize. done.
    + rewrite Hans. by intros [[=]|[[=]|(s' & [=] & _)]].
Qed.

(** C1, the failing input: a required checkbox field whose first option has
    an empty text, and a respondent who has ticked just that option. *)
Lemma validateForm_blank_singleton_slip_witness :
  answers sample_blank_viewer !! "field_3" = Some (AArr [""]) ∧
  ∃ st', validateForm sample_blank_viewer = Some (st', false) ∧
         errors st' !! "field_3" = Some required_message ∧
         ¬ blank_per_spec (answers sample_blank_viewer !! "field_3").
Proof.
  split; [reflexivity|].
  destruct (validateForm_blank_singleton_slip sample_blank_viewer _ ∅
              sample_required_boxes eq_refl eq_refl (list_elem_of_here _ _) eq_refl)
    as (st' & ok & Hval & _ & _ & _ & _ & _ & Hslip).
  - intros g Hg _. apply list_elem_of_singleton in Hg. by subst g.
  - destruct (Hslip "" eq_refl eq_refl eq_refl) as (Herr & -> & Hnot).
    exists st'. split; [exact Hval|]. split; [exact Herr|exact Hnot].
Defined.

(** The three cases of the specification alone do not describe the loop:
    for the one-entry sequence [[""]] stored for a required checkbox field
    the error is there and none of the three cases applies. *)
Lemma validateForm_rejects_singleton_blank_sequence :
  ¬ (∀ st (fm : Form) f st' ok,
       form st = Some fm → f ∈ fields fm →
       validateForm st = Some (st', ok) →
       (is_Some (errors st' !! id f) ↔
          required f = true ∧ blank_per_spec (answers st !! id f))).
Proof.
  intros H.
  destruct (H sample_blank_viewer _ sample_required_boxes _ _
              eq_refl (list_elem_of_here _ _) eq_refl) as [Hto _].
  destruct Hto as [_ Hblank]; [by eexists|].
  destruct Hblank as [[=]|[[=]|(s & [=] & _)]].
Qed.

End Validation.

(** ** Submission *)

Section Submission.
Import Viewer.
Implicit Types (st : ViewerState) (f g : FormField).

(** C5, as amended.  The form has a required text field [t] and an
    optional checkbox field [c], and the text input is empty.  Whatever the
    rest of the state, [handleSubmit] returns at once: the table of
    responses is unchanged, and so is every part of the viewer state other
    than [errors].  The new error map holds the error of [t]; besides it
    holds the error of the email pseudo-field exactly when the respondent's
    email is not known and none is typed, the same for the name, and
    nothing else.  So of the form's fields only [t] has an error, and for a
    respondent whose email and name are known the error map is exactly the
    one entry of [t]. *)
Theorem handleSubmit_empty_required_text (env : Env) st (fm : Form)
    (t c : FormField) (perr : gmap string string) (form_responses : list Submission) :
  form st = Some fm →
  fields fm = [t; c] →
  type t = short_text → required t = true →
  type c = checkbox → required c = false →
  text_empty (answers st !! id t) →
  pseudoFieldErrors st = Some perr →
  ∃ st',
    handleSubmit env st form_responses = Some (st', form_responses) ∧
    answers st' = answers st ∧ form st' = form st ∧
    submitted st' = submitted st ∧ submitting st' = submitting st ∧
    startTime st' = startTime st ∧
    userEmail st' = userEmail st ∧ userName st' = userName st ∧
    errors st' !! id t = Some required_message ∧
    (∀ k, is_Some (errors st' !! k) ↔
       k = id t ∨
       (k = "user_email" ∧ userEmail st = "" ∧
          text_empty (answers st !! "user_email")) ∨
       (k = "user_name" ∧ userName st = "" ∧
          text_empty (answers st !! "user_name"))) ∧
    (id c ≠ id t → id c ≠ "user_email" → id c ≠ "user_name" →
       errors st' !! id c = None) ∧
    (userEmail st ≠ "" → userName st ≠ "" →
       errors st' = {[ id t := required_message ]}).
Proof.
  intros Hform Hfields _ Hreq_t _ Hreq_c Hempty Hperr.
  assert (answer_missing (answers st !! id t) = true) as Hmiss.
  { apply answer_missing_iff. left.
    destruct Hempty as [->|(s & -> & Htrim)]; [by left|].
    right; right. by exists s. }
  assert (validateForm st
          = Some (setErrors (<[id t := required_message]> perr) st, false))
    as Hval.
  { rewrite (validateForm_unfold st perr Hperr), Hform. simpl.
    rewrite Hfields. simpl. unfold check_field.
    rewrite Hreq_t, Hreq_c, Hmiss. fold required_message.
    destruct (size (<[id t := required_message]> perr)) eqn:Hsize; [|done].
    apply map_size_empty_iff in Hsize.
    by apply insert_non_empty in Hsize. }
  exists (setErrors (<[id t := required_message]> perr) st).
  split; [unfold handleSubmit; by rewrite Hval|].
  simpl. repeat (split; [done|]).
  split; [by rewrite lookup_insert_eq|].
  assert (∀ k, is_Some (<[id t := required_message]> perr !! k) ↔
               k = id t ∨ is_Some (perr !! k)) as Hkeys.
  { intros k. destruct (decide (k = id t)) as [->|Hne].
    - rewrite lookup_insert_eq. split; [by left|by eexists].
    - rewrite lookup_insert_ne by done. split; [by right|by intros [?|?]]. }
  split; [|split].
  - intros k. rewrite Hkeys. by rewrite (pseudoFieldErrors_lookup st perr k Hperr).
  - intros Hne He Hn. rewrite lookup_insert_ne by done.
    destruct (perr !! id c) eqn:Hc; [|done].
    assert (is_Some (perr !! id c)) as Hsome by (by eexists).
    apply (pseudoFieldErrors_lookup st perr (id c) Hperr) in Hsome.
    by destruct Hsome as [[? _]|[? _]].
  - intros He Hn.
    assert (perr = ∅) as ->; [|by rewrite insert_empty].
    apply map_eq. intros k. rewrite lookup_empty.
    destruct (perr !! k) eqn:Hk; [|done].
    assert (is_Some (perr !! k)) as Hsome by (by eexists).
    apply (pseudoFieldErrors_lookup st perr k Hperr) in Hsome.
    by destruct Hsome as [(_ & ? & _)|(_ & ? & _)].
Qed.

(** C5, witness: the sample form shown to an unknown respondent who has
    typed nothing.  Three errors are stored and nothing is sent. *)
Lemma handleSubmit_empty_required_text_witness :
  text_empty (answers sample_anonymous_viewer !! id sample_text) ∧
  ∃ st',
    handleSubmit sample_env sample_anonymous_viewer [] = Some (st', []) ∧
    answers st' = answers sample_anonymous_viewer ∧
    errors st' !! "field_1" = Some required_message ∧
    is_Some (errors st' !! "user_email") ∧
    errors st' !! "field_2" = None.
Proof.
  assert (text_empty (answers sample_anonymous_viewer !! id sample_text)) as Hempty
    by (left; reflexivity).
  split; [exact Hempty|].
  destruct (handleSubmit_empty_required_text sample_env sample_anonymous_viewer _
              sample_text sample_boxes _ []
              eq_refl eq_refl eq_refl eq_refl eq_refl eq_refl Hempty eq_refl)
    as (st' & Hrun & Hans & _ & _ & _ & _ & _ & _ & Herr & Hkeys & Hbox & _).
  exists st'. split; [exact Hrun|]. split; [exact Hans|]. split; [exact Herr|].
  split.
  - apply Hkeys. right. left. split; [reflexivity|]. split; [reflexivity|].
    left. reflexivity.
  - apply Hbox; discriminate.
Defined.

(** C5, counterexample: for a respondent whose email and name are not known
    and who has typed nothing, the failed attempt stores the errors of the
    two pseudo-fields as well, so the text field is not the only key with an
    error. *)
Lemma handleSubmit_also_reports_pseudo_fields :
  ¬ (∀ (env : Env) st (fm : Form) (t c : FormField) (form_responses : list Submission),
       form st = Some fm → fields fm = [t; c] →
       type t = short_text → required t = true →
       type c = checkbox → required c = false →
       text_empty (answers st !! id t) →
       ∃ st', handleSubmit env st form_responses = Some (st', form_responses) ∧
              ∀ k, is_Some (errors st' !! k) → k = id t).
Proof.
  intros H.
  destruct (H sample_env sample_anonymous_viewer _ sample_text sample_boxes []
              eq_refl eq_refl eq_refl eq_refl eq_refl eq_refl (or_introl eq_refl))
    as (st' & Hrun & Honly).
  vm_compute in Hrun. injection Hrun as <-.
  assert ("user_email" = id sample_text) as Habs; [|discriminate Habs].
  apply Honly. vm_compute. by eexists.
Qed.

End Submission.

(** ** Answering *)

Section Answering.
Import Viewer.
Implicit Types (st : ViewerState) (field : FormField) (opt : string).

Lemma updateAnswer_answers (fieldId : string) (value : Answer) st :
  answers (updateAnswer fieldId value st) = <[fieldId := value]> (answers st).
Proof. unfold updateAnswer. by destruct (match _ with Some _ => _ | None => _ end). Qed.

Lemma updateAnswer_errors (fieldId : string) (value : Answer) st :
  errors (updateAnswer fieldId value st) = errors st ∨
  errors (updateAnswer fieldId value st) = delete fieldId (errors st).
Proof.
  unfold updateAnswer.
  destruct (match _ with Some _ => _ | None => _ end); [by right|by left].
Qed.

(** C8.  [updateAnswer] sets the answer of [fieldId] and touches no other
    answer; the error map stays as it is or loses the entry of [fieldId],
    so the error of every other field is unchanged.  The entry is removed
    whenever it holds a non-empty message.  The rest of the viewer state is
    unchanged. *)
Theorem updateAnswer_frame (fieldId : string) (value : Answer) st :
  let st' := updateAnswer fieldId value st in
  answers st' = <[fieldId := value]> (answers st) ∧
  (errors st' = errors st ∨ errors st' = delete fieldId (errors st)) ∧
  (∀ k, k ≠ fieldId →
     errors st' !! k = errors st !! k ∧ answers st' !! k = answers st !! k) ∧
  (∀ m, errors st !! fieldId = Some m → m ≠ "" → errors st' !! fieldId = None) ∧
  form st' = form st ∧ submitted st' = submitted st ∧
  submitting st' = submitting st ∧
  userEmail st' = userEmail st ∧ userName st' = userName st.
Proof.
  intros st'. subst st'.
  split; [apply updateAnswer_answers|].
  split; [apply updateAnswer_errors|].
  split; [|split].
  - intros k Hk. rewrite updateAnswer_answers. split.
    + destruct (updateAnswer_errors fieldId value st) as [->| ->]; [done|].
      by rewrite lookup_delete_ne.
    + by rewrite lookup_insert_ne.
  - intros m Hm Hne. unfold updateAnswer. rewrite Hm.
    unfold Js.truthy_string.
    rewrite (proj2 (String.eqb_neq m "")) by done. simpl.
    apply lookup_delete_eq.
  - unfold updateAnswer.
    by destruct (match _ with Some _ => _ | None => _ end).
Qed.

Lemma filter_out_appended (opt : string) (cur : list string) :
  opt ∉ cur →
  List.filter (λ o, negb (String.eqb o opt)) (cur ++ [opt]) = cur.
Proof.
  intros Hnotin. rewrite List.filter_app. simpl.
  rewrite String.eqb_refl. simpl. rewrite app_nil_r.
  induction cur as [|x rest IH]; [done|]. simpl.
  apply not_elem_of_cons in Hnotin as [Hne Hrest].
  rewrite (proj2 (String.eqb_neq x opt)) by done. simpl.
  f_equal. by apply IH.
Qed.

Lemma currentOptions_stored_array field st (l : list string) :
  answers st !! id field = Some (AArr l) → currentOptions field st = AArr l.
Proof. intros H. unfold currentOptions. by rewrite H. Qed.

(** C7, as amended.  When a sequence [cur] is stored for a checkbox field
    and the option [opt] is not in it, ticking [opt] stores [cur] followed
    by [opt], and unticking it again gives back the answer map as it was.
    When nothing is stored for the field yet, the same two steps store
    first the one option and then the empty sequence, so the answer map is
    not as before: it has gained an entry.  And whenever [onCheckedChange]
    returns, in any state, what it has stored for the field is a sequence
    of strings. *)
Theorem checkbox_tick_then_untick field opt st :
  (∀ cur, answers st !! id field = Some (AArr cur) → opt ∉ cur →
     ∃ st1 st2,
       onCheckedChange field opt true st = Some st1 ∧
       answers st1 = <[id field := AArr (cur ++ [opt])%list]> (answers st) ∧
       onCheckedChange field opt false st1 = Some st2 ∧
       answers st2 = answers st) ∧
  (answers st !! id field = None →
     ∃ st1 st2,
       onCheckedChange field opt true st = Some st1 ∧
       answers st1 = <[id field := AArr [opt]]> (answers st) ∧
       onCheckedChange field opt false st1 = Some st2 ∧
       answers st2 = <[id field := AArr []]> (answers st) ∧
       answers st2 ≠ answers st) ∧
  (∀ checked st0 st', onCheckedChange field opt checked st0 = Some st' →
     ∃ l, answers st' !! id field = Some (AArr l)).
Proof.
  assert (∀ cur, currentOptions field st = AArr cur → opt ∉ cur →
            ∃ st1 st2,
              onCheckedChange field opt true st = Some st1 ∧
              answers st1 = <[id field := AArr (cur ++ [opt])%list]> (answers st) ∧
              onCheckedChange field opt false st1 = Some st2 ∧
              answers st2 = <[id field := AArr cur]> (answers st)) as Hsteps.
  { intros cur Hcur Hnotin.
    set (st1 := updateAnswer (id field) (AArr (cur ++ [opt])%list) st).
    assert (answers st1 = <[id field := AArr (cur ++ [opt])%list]> (answers st))
      as Hst1 by apply updateAnswer_answers.
    exists st1, (updateAnswer (id field) (AArr cur) st1).
    split; [unfold onCheckedChange; by rewrite Hcur|]. split; [done|]. split.
    - unfold onCheckedChange.
      rewrite (currentOptions_stored_array field st1 (cur ++ [opt])%list)
        by (by rewrite Hst1, lookup_insert_eq).
      by rewrite filter_out_appended.
    - by rewrite updateAnswer_answers, Hst1, insert_insert_eq. }
  split; [|split].
  - intros cur Hstored Hnotin.
    destruct (Hsteps cur (currentOptions_stored_array field st cur Hstored) Hnotin)
      as (st1 & st2 & Htick & Hst1 & Huntick & Hst2).
    exists st1, st2. repeat (split; [done|]).
    rewrite Hst2. by apply insert_id.
  - intros Hnone.
    assert (currentOptions field st = AArr []) as Hcur
      by (unfold currentOptions; by rewrite Hnone).
    destruct (Hsteps [] Hcur (not_elem_of_nil opt))
      as (st1 & st2 & Htick & Hst1 & Huntick & Hst2).
    exists st1, st2. repeat (split; [done|]).
    rewrite Hst2. intros Heq.
    apply (f_equal (lookup (id field))) in Heq.
    by rewrite lookup_insert_eq, Hnone in Heq.
  - intros checked st0 st'. unfold onCheckedChange.
    destruct (currentOptions field st0), checked; intros [= <-];
      rewrite updateAnswer_answers, lookup_insert_eq; by eexists.
Qed.

(** C7, witness: the second option of the sample checkbox field is ticked
    already; the first one is ticked and unticked again. *)
Lemma checkbox_tick_then_untick_witness :
  answers sample_ticked_viewer !! "field_2" = Some (AArr ["Option 2"]) ∧
  ∃ st1 st2,
    onCheckedChange sample_boxes "Option 1" true sample_ticked_viewer = Some st1 ∧
    answers st1 !! "field_2" = Some (AArr ["Option 2"; "Option 1"]) ∧
    onCheckedChange sample_boxes "Option 1" false st1 = Some st2 ∧
    answers st2 = answers sample_ticked_viewer.
Proof.
  split; [reflexivity|].
  destruct (proj1 (checkbox_tick_then_untick sample_boxes "Option 1"
                     sample_ticked_viewer) ["Option 2"] eq_refl)
    as (st1 & st2 & Htick & Hst1 & Huntick & Hst2).
  - intros Hin. apply list_elem_of_singleton in Hin. discriminate Hin.
  - exists st1, st2. split; [exact Htick|]. split.
    + rewrite Hst1. reflexivity.
    + split; [exact Huntick|exact Hst2].
Defined.

(** C7, counterexample: in a viewer where nothing is stored for the
    checkbox field, ticking and unticking an option leaves the empty
    sequence stored, where nothing was stored before. *)
Lemma checkbox_untick_leaves_empty_sequence :
  ¬ (∀ field opt st st1 st2,
       type field = checkbox →
       (∀ l, answers st !! id field = Some (AArr l) → opt ∉ l) →
       onCheckedChange field opt true st = Some st1 →
       onCheckedChange field opt false st1 = Some st2 →
       answers st2 !! id field = answers st !! id field).
Proof.
  intros H.
  set (st1 := updateAnswer "field_2" (AArr ["Option 1"]) sample_viewer).
  set (st2 := updateAnswer "field_2" (AArr []) st1).
  specialize (H sample_boxes "Option 1" sample_viewer st1 st2 eq_refl).
  assert (∀ l, answers sample_viewer !! id sample_boxes = Some (AArr l) →
               "Option 1" ∉ l) as Hfresh by (intros l [=]).
  specialize (H Hfresh eq_refl eq_refl). discriminate H.
Qed.

End Answering.

(** * Further properties of the builder *)

Section SwapFacts.
Context {A : Type}.
Implicit Types (l : list A).

Lemma swap_at_cons (x : A) l (i j : nat) :
  swap_at (S i) (S j) (x :: l) = x :: swap_at i j l.
Proof. unfold swap_at. simpl. by destruct (l !! i), (l !! j). Qed.

Lemma swap_at_succ_perm l (i : nat) : swap_at i (S i) l ≡ₚ l.
Proof.
  revert i. induction l as [|x rest IH]; intros i; [done|].
  destruct i as [|i].
  - destruct rest as [|y rest]; [done|]. unfold swap_at. simpl. apply perm_swap.
  - rewrite swap_at_cons. by apply perm_skip.
Qed.

Lemma swap_at_comm l (i j : nat) : swap_at i j l = swap_at j i l.
Proof.
  destruct (decide (i = j)) as [->|Hne]; [done|].
  unfold swap_at. destruct (l !! i) eqn:Hi, (l !! j) eqn:Hj; try done.
  by apply list_insert_insert_ne.
Qed.

Lemma swap_at_involutive l (i j : nat) :
  (i < length l)%nat → (j < length l)%nat → swap_at j i (swap_at i j l) = l.
Proof.
  intros Hi Hj. apply list_eq. intros k.
  rewrite swap_at_lookup by (by rewrite swap_at_length).
  rewrite !swap_at_lookup by done.
  repeat case_decide; by simplify_eq.
Qed.

End SwapFacts.

Section BuilderMore.
Import Builder.
Implicit Types (l prev : list FormField) (f g : FormField).

Lemma merge_idempotent f (updates : FieldUpdates) :
  merge (merge f updates) updates = merge f updates.
Proof.
  destruct updates as [[?|] [?|] [?|] [?|] [?|] [?|]]; reflexivity.
Qed.

(** X1.  [updateField] keeps the length of the sequence, leaves every field
    with another id in its place, replaces every field with the given id by
    its merge with the update object, and keeps the sequence of ids when
    the update object has no [id] key. *)
Theorem updateField_frame (fieldId : string) (updates : FieldUpdates) prev :
  length (updateField fieldId updates prev) = length prev ∧
  (∀ (i : nat) g, prev !! i = Some g → id g ≠ fieldId →
     updateField fieldId updates prev !! i = Some g) ∧
  (∀ (i : nat) g, prev !! i = Some g → id g = fieldId →
     updateField fieldId updates prev !! i = Some (merge g updates)) ∧
  (upd_id updates = None →
     id <$> updateField fieldId updates prev = id <$> prev).
Proof.
  unfold updateField.
  change (@map FormField FormField) with (@fmap list _ FormField FormField).
  split; [by rewrite length_fmap|]. split; [|split].
  - intros i g Hi Hne. rewrite list_lookup_fmap, Hi. simpl.
    by rewrite (proj2 (String.eqb_neq _ _) Hne).
  - intros i g Hi <-. rewrite list_lookup_fmap, Hi. simpl.
    by rewrite String.eqb_refl.
  - intros Hnoid. rewrite <- list_fmap_compose. apply list_fmap_ext.
    intros i g _. simpl. destruct (String.eqb (id g) fieldId); [|done].
    unfold merge. simpl. by rewrite Hnoid.
Qed.

(** X2.  Applying the same update twice is the same as applying it once. *)
Theorem updateField_idempotent (fieldId : string) (updates : FieldUpdates) prev :
  updateField fieldId updates (updateField fieldId updates prev)
    = updateField fieldId updates prev.
Proof.
  unfold updateField. rewrite map_map. apply map_ext. intros g.
  destruct (String.eqb (id g) fieldId) eqn:Hg; [|by rewrite Hg].
  destruct (String.eqb (id (merge g updates)) fieldId); [|done].
  apply merge_idempotent.
Qed.


(** X4.  Removing the id that [addField] has just generated removes the new
    field together with every older field carrying the same id; when the id
    was new, the sequence is back to what it was. *)
Theorem removeField_after_addField (now : Z) prev :
  removeField (generated_id now) (addField now prev)
    = removeField (generated_id now) prev ∧
  (id_absent (generated_id now) prev →
     removeField (generated_id now) (addField now prev) = prev).
Proof.
  assert (removeField (generated_id now) (addField now prev)
          = removeField (generated_id now) prev) as Heq.
  { unfold removeField, addField. rewrite List.filter_app. simpl.
    unfold generated_id. rewrite String.eqb_refl. simpl. apply app_nil_r. }
  split; [exact Heq|].
  intros Habs. rewrite Heq. by apply removeField_absent.
Qed.

Lemma exists_first_with_id (fieldId : string) l :
  (∃ g, g ∈ l ∧ id g = fieldId) →
  ∃ (i : nat) f, first_with_id l i f ∧ id f = fieldId.
Proof.
  induction l as [|x rest IH]; intros (g & Hg & Hid).
  { by apply elem_of_nil in Hg. }
  destruct (decide (id x = fieldId)) as [Hx|Hx].
  - exists 0%nat, x. split; [|done]. split; [done|]. intros j ? Hj. lia.
  - apply elem_of_cons in Hg as [->|Hg]; [done|].
    destruct IH as (i & f & [Hi Hbefore] & Hf); [by exists g|].
    exists (S i), f. split; [|done]. split; [done|].
    intros [|j] h Hj Hh.
    + injection Hh as <-. congruence.
    + apply (Hbefore j h); [lia|done].
Qed.

Lemma moveField_at_boundary l (i : nat) f (dir : Direction) :
  first_with_id l i f →
  match dir with up => i = 0%nat | down => S i = length l end →
  moveField (id f) dir l = Some <$> l.
Proof.
  intros Hfirst Hedge. unfold moveField. cbv zeta.
  rewrite (findIndex_first_with_id l i f Hfirst), length_fmap.
  destruct dir.
  - subst i. done.
  - destruct (Z.ltb_spec (Z.of_nat i + 1) 0) as [?|_]; [lia|].
    destruct (Z.geb_spec (Z.of_nat i + 1) (Z.of_nat (length l))) as [_|?]; [done|lia].
Qed.

Lemma id_present_or_absent (fieldId : string) l :
  (∃ g, g ∈ l ∧ id g = fieldId) ∨ id_absent fieldId l.
Proof.
  destruct (decide (fieldId ∈ id <$> l)) as [Hin|Hout].
  - left. apply list_elem_of_fmap in Hin as (g & -> & Hg). by exists g.
  - right. intros g Hg Hid. apply Hout. apply list_elem_of_fmap. by exists g.
Qed.

Lemma moveField_length (fieldId : string) (dir : Direction) l :
  length (moveField fieldId dir l) = length l.
Proof.
  destruct (id_present_or_absent fieldId l) as [Hin|Habs].
  - destruct (exists_first_with_id fieldId l Hin) as (i & f & Hfirst & <-).
    pose proof Hfirst as [Hi _]. pose proof (lookup_lt_Some _ _ _ Hi) as Hlen.
    destruct dir.
    + destruct (decide (i = 0%nat)) as [Hz|Hnz].
      * by rewrite (moveField_at_boundary l i f up Hfirst Hz), length_fmap.
      * destruct (lookup_lt_is_Some_2 l (pred i)) as [g Hg]; [lia|].
        rewrite (moveField_first_with_id up l i (pred i) f g) by done.
        by rewrite length_fmap, swap_at_length.
    + destruct (decide (S i = length l)) as [Hz|Hnz].
      * by rewrite (moveField_at_boundary l i f down Hfirst Hz), length_fmap.
      * destruct (lookup_lt_is_Some_2 l (S i)) as [g Hg]; [lia|].
        rewrite (moveField_first_with_id down l i (S i) f g) by done.
        by rewrite length_fmap, swap_at_length.
  - destruct dir.
    + by rewrite moveField_up_absent, length_fmap.
    + rewrite moveField_down_absent by done.
      destruct l; [done|]. simpl. by rewrite length_fmap.
Qed.

(** X5.  [moveField] never changes the number of slots.  When some field
    carries the id, the result holds the same fields as before, each as
    often as before, and the ids stay pairwise distinct if they were. *)
Theorem moveField_permutes (fieldId : string) (dir : Direction) l :
  length (moveField fieldId dir l) = length l ∧
  ((∃ g, g ∈ l ∧ id g = fieldId) →
     ∃ l', moveField fieldId dir l = Some <$> l' ∧ l' ≡ₚ l ∧
           (NoDup (id <$> l) → NoDup (id <$> l'))).
Proof.
  split; [apply moveField_length|].
  intros Hin.
  destruct (exists_first_with_id fieldId l Hin) as (i & f & Hfirst & <-).
  pose proof Hfirst as [Hi _]. pose proof (lookup_lt_Some _ _ _ Hi) as Hlen.
  assert (∀ l', l' ≡ₚ l → NoDup (id <$> l) → NoDup (id <$> l')) as Hnodup.
  { intros l' Hperm. by rewrite Hperm. }
  destruct dir.
  - destruct (decide (i = 0%nat)) as [Hz|Hnz].
    + exists l. rewrite (moveField_at_boundary l i f up Hfirst Hz). auto.
    + destruct (lookup_lt_is_Some_2 l (pred i)) as [g Hg]; [lia|].
      exists (swap_at i (pred i) l).
      rewrite (moveField_first_with_id up l i (pred i) f g) by done.
      assert (swap_at i (pred i) l ≡ₚ l) as Hperm.
      { rewrite swap_at_comm. replace i with (S (pred i)) at 2 by lia.
        apply swap_at_succ_perm. }
      auto.
  - destruct (decide (S i = length l)) as [Hz|Hnz].
    + exists l. rewrite (moveField_at_boundary l i f down Hfirst Hz). auto.
    + destruct (lookup_lt_is_Some_2 l (S i)) as [g Hg]; [lia|].
      exists (swap_at i (S i) l).
      rewrite (moveField_first_with_id down l i (S i) f g) by done.
      pose proof (swap_at_succ_perm l i). auto.
Qed.

Lemma moveField_then_back l (i j : nat) f (dir back : Direction) :
  NoDup (id <$> l) → l !! i = Some f → (j < length l)%nat →
  j = match dir with up => pred i | down => S i end →
  i = match back with up => pred j | down => S j end →
  (dir = up → i ≠ 0%nat) → (back = up → j ≠ 0%nat) →
  moveField (id f) dir l = Some <$> swap_at i j l ∧
  moveField (id f) back (swap_at i j l) = Some <$> l.
Proof.
  intros Hnd Hi Hj Hdir Hback Hup Hbackup.
  pose proof (lookup_lt_Some _ _ _ Hi) as Hlen.
  destruct (lookup_lt_is_Some_2 l j Hj) as [g Hg].
  assert (i ≠ j) as Hij by (destruct dir; [specialize (Hup eq_refl)|]; lia).
  split.
  { apply (moveField_first_with_id dir l i j f g); try done.
    by apply NoDup_first_with_id. }
  set (l' := swap_at i j l).
  assert (l' !! j = Some f) as Hj'.
  { subst l'. rewrite swap_at_lookup by done. by rewrite decide_True. }
  assert (l' !! i = Some g) as Hi'.
  { subst l'. rewrite swap_at_lookup by done.
    rewrite decide_False by done. by rewrite decide_True. }
  assert (NoDup (id <$> l')) as Hnd'.
  { assert (l' ≡ₚ l) as ->; [|done]. subst l'.
    destruct dir; subst j.
    - rewrite swap_at_comm. replace i with (S (pred i)) at 2
        by (specialize (Hup eq_refl); lia).
      apply swap_at_succ_perm.
    - apply swap_at_succ_perm. }
  rewrite (moveField_first_with_id back l' j i f g); try done.
  - subst l'. by rewrite swap_at_involutive.
  - by apply NoDup_first_with_id.
Qed.

(** X6.  In a sequence with pairwise distinct ids, moving a field up and
    then down again, or down and then up again, gives back the sequence,
    whenever the first move is not at the boundary. *)
Theorem moveField_round_trip l (i : nat) f :
  NoDup (id <$> l) → l !! i = Some f →
  (i ≠ 0%nat →
     ∃ l', moveField (id f) up l = Some <$> l' ∧
           moveField (id f) down l' = Some <$> l) ∧
  (S i ≠ length l →
     ∃ l', moveField (id f) down l = Some <$> l' ∧
           moveField (id f) up l' = Some <$> l).
Proof.
  intros Hnd Hi. pose proof (lookup_lt_Some _ _ _ Hi) as Hlen. split.
  - intros Hnz. exists (swap_at i (pred i) l).
    apply (moveField_then_back l i (pred i) f up down); try done; lia.
  - intros Hnl. exists (swap_at i (S i) l).
    apply (moveField_then_back l i (S i) f down up); try done; lia.
Qed.

Lemma sample_ids_distinct : NoDup (id <$> [sample_text; sample_boxes]).
Proof.
  apply NoDup_cons. split.
  - intros Hin. apply list_elem_of_singleton in Hin. discriminate Hin.
  - apply NoDup_singleton.
Qed.

(** X6, witness: the second sample field goes up and down again. *)
Lemma moveField_round_trip_witness :
  NoDup (id <$> [sample_text; sample_boxes]) ∧
  ∃ l', moveField "field_2" up [sample_text; sample_boxes] = Some <$> l' ∧
        moveField "field_2" down l' = Some <$> [sample_text; sample_boxes].
Proof.
  split; [exact sample_ids_distinct|].
  exact (proj1 (moveField_round_trip [sample_text; sample_boxes] 1 sample_boxes
                  sample_ids_distinct eq_refl) ltac:(discriminate)).
Defined.

End BuilderMore.

(** ** Editing options *)

Section OptionEditing.
Import FieldEditor.
Local Open Scope list_scope.
Implicit Types (field : FormField) (cur : list string).

Lemma filter_index_from_skip {A} (l : list A) (k s : Z) (n : nat) :
  k = s + Z.of_nat n →
  filter_index_from (λ _ i, negb (i =? k)) l s = take n l ++ drop (S n) l.
Proof.
  revert s n. induction l as [|x rest IH]; intros s n Hk; simpl.
  { by destruct n. }
  destruct n as [|n].
  - replace (s =? k) with true by (symmetry; apply Z.eqb_eq; lia). simpl.
    rewrite drop_0. clear IH.
    assert (∀ t, s < t → filter_index_from (λ _ i, negb (i =? k)) rest t = rest) as Hrest.
    { induction rest as [|y rest' IH']; intros t Ht; simpl; [done|].
      replace (t =? k) with false by (symmetry; apply Z.eqb_neq; lia). simpl.
      f_equal. apply IH'. lia. }
    apply Hrest. lia.
  - replace (s =? k) with false by (symmetry; apply Z.eqb_neq; lia). simpl.
    f_equal. apply IH. lia.
Qed.

Lemma filter_index_from_negative {A} (l : list A) (k s : Z) :
  k < s → filter_index_from (λ _ i, negb (i =? k)) l s = l.
Proof.
  revert s. induction l as [|x rest IH]; intros s Hk; simpl; [done|].
  replace (s =? k) with false by (symmetry; apply Z.eqb_neq; lia). simpl.
  f_equal. apply IH. lia.
Qed.

(** X7.  [updateOption] with an index inside the list replaces exactly that
    option and keeps the others and their number.  A negative index changes
    nothing.  An index at or past the end grows the array: the slots in
    between are holes and the last slot holds the value. *)
Theorem updateOption_by_index field (value : string) :
  (∀ n : nat, (n < length (currentOptions field))%nat →
     updateOption field (Z.of_nat n) value
       = Some <$> <[n := value]> (currentOptions field)) ∧
  (∀ k : Z, k < 0 →
     updateOption field k value = Some <$> currentOptions field) ∧
  (∀ n : nat, (length (currentOptions field) ≤ n)%nat →
     updateOption field (Z.of_nat n) value
       = (Some <$> currentOptions field)
         ++ replicate (n - length (currentOptions field)) None ++ [Some value]).
Proof.
  unfold updateOption. cbv zeta. split; [|split].
  - intros n Hn.
    rewrite array_set_fmap_Some by (by rewrite length_fmap).
    by rewrite list_fmap_insert.
  - intros k Hk. unfold Js.array_set.
    by destruct (Z.ltb_spec k 0) as [_|?]; [|lia].
  - intros n Hn. unfold Js.array_set. rewrite length_fmap.
    destruct (Z.ltb_spec (Z.of_nat n) 0) as [?|_]; [lia|].
    destruct (Z.ltb_spec (Z.of_nat n) (Z.of_nat (length (currentOptions field))))
      as [?|_]; [lia|].
    by rewrite Nat2Z.id.
Qed.

(** X8.  [removeOption] with the index [n] drops exactly the option at
    position [n] and keeps the others in order; an index outside the list
    changes nothing.  Removing the option that [addOption] has just
    appended gives back the options as they were. *)
Theorem removeOption_by_index field :
  (∀ n : nat, upd_options (removeOption field (Z.of_nat n))
     = Some (Some (take n (currentOptions field)
                   ++ drop (S n) (currentOptions field)))) ∧
  (∀ k : Z, k < 0 ∨ Z.of_nat (length (currentOptions field)) ≤ k →
     upd_options (removeOption field k) = Some (Some (currentOptions field))) ∧
  (let added := merge field (addOption field) in
   options added = Some (currentOptions field ++ [""]) ∧
   options (merge added (removeOption added
                           (Z.of_nat (length (currentOptions field)))))
     = Some (currentOptions field)).
Proof.
  assert (∀ (g : FormField) (n : nat),
            upd_options (removeOption g (Z.of_nat n))
            = Some (Some (take n (currentOptions g) ++ drop (S n) (currentOptions g))))
    as Hnat.
  { intros g n. unfold removeOption. simpl.
    by rewrite (filter_index_from_skip _ (Z.of_nat n) 0 n) by lia. }
  split; [apply Hnat|]. split.
  - intros k [Hneg|Hpast].
    + unfold removeOption. simpl. by rewrite filter_index_from_negative.
    + replace k with (Z.of_nat (Z.to_nat k)) by lia. rewrite Hnat.
      rewrite take_ge, drop_ge by lia. by rewrite app_nil_r.
  - cbv zeta. split; [done|].
    set (added := merge field (addOption field)).
    assert (currentOptions added = currentOptions field ++ [""]) as Hadded by done.
    unfold merge at 1. simpl options. f_equal.
    rewrite (filter_index_from_skip _ _ 0 (length (currentOptions field))) by lia.
    rewrite Hadded.
    rewrite take_app_length, drop_ge by (rewrite length_app; simpl; lia).
    by rewrite app_nil_r.
Qed.

(** X9.  An option edit changes nothing but [options], and leaves them
    defined: on a field of a choice type, the one for which the editor is
    rendered, the options invariant holds after [addOption] and after
    [removeOption] with any index. *)
Theorem option_edits_keep_options_ok field (k : Z) :
  hasOptions field = true →
  options_ok (merge field (addOption field)) ∧
  options_ok (merge field (removeOption field k)) ∧
  (∀ updates, updates = addOption field ∨ updates = removeOption field k →
     let field' := merge field updates in
     id field' = id field ∧ type field' = type field ∧
     label field' = label field ∧ required field' = required field ∧
     placeholder field' = placeholder field).
Proof.
  unfold hasOptions. intros Hchoice.
  split; [|split].
  - split; [done|]. intros _. by eexists.
  - split; [done|]. intros _. by eexists.
  - by intros updates [-> | ->].
Qed.

(** X9, witness: the sample checkbox field. *)
Lemma option_edits_keep_options_ok_witness :
  hasOptions sample_boxes = true ∧
  options_ok (merge sample_boxes (addOption sample_boxes)) ∧
  options_ok (merge sample_boxes (removeOption sample_boxes 0)).
Proof.
  split; [reflexivity|].
  destruct (option_edits_keep_options_ok sample_boxes 0 eq_refl) as (Hadd & Hrem & _).
  split; [exact Hadd|exact Hrem].
Defined.

End OptionEditing.

(** ** What [handleSave] sends *)

Section SaveMore.
Import Builder.

(** X10.  [handleSave] sends a call exactly when the title is not blank and
    a user is signed in.  The call updates the form of the route when the
    route names one and inserts a new form otherwise; its payload carries
    title, description and fields of the draft and the user as owner.  The
    draft itself keeps title, description and fields, and its publish flag
    changes at most when the store accepts an update. *)
Theorem handleSave_sends_the_draft (publish : bool) (formId user : option string)
    (store : StoreCall → bool) (formData : FormData) :
  let result := handleSave publish formId user store formData in
  (is_Some result.1 ↔
     Js.truthy_string (Js.trim (title formData)) = true ∧ is_Some user) ∧
  (∀ call, result.1 = Some call →
     payload_title (call_payload call) = title formData ∧
     payload_description (call_payload call) = description formData ∧
     payload_fields (call_payload call) = fields formData ∧
     Some (owner_id (call_payload call)) = user ∧
     (has_formId formId = true → ∃ i, formId = Some i ∧
        call = forms_update i (call_payload call)) ∧
     (has_formId formId = false → call = forms_insert (call_payload call))) ∧
  title result.2 = title formData ∧
  description result.2 = description formData ∧
  fields result.2 = fields formData ∧
  (is_published result.2 ≠ is_published formData →
     has_formId formId = true ∧ ∃ call, result.1 = Some call ∧ store call = true).
Proof.
  cbv zeta. unfold handleSave, handleSave_call, handleSave_settle, has_formId.
  destruct (Js.truthy_string (Js.trim (title formData))) eqn:Htitle;
    destruct user as [user_id|];
    (destruct formId as [i|]; [destruct (Js.truthy_string i) eqn:Hi|]);
    simpl;
    try (match goal with |- context [store ?c] => destruct (store c) eqn:Hstore end; simpl);
    (split; [split; [try (by intros [? [=]]); by auto
                    |try (by intros [[=] _]); try (by intros [_ [? [=]]]); by eexists]|]);
    (split; [intros call Hcall; simplify_eq/=; repeat split; try done;
             try (by intros _; eexists)|]).
  all: repeat (split; [done|]).
  all: try done.
  by eexists.
Qed.

End SaveMore.

(** * Further properties of the viewer *)

Section ValidationMore.
Import Viewer.
Implicit Types (st : ViewerState) (f g : FormField).

Lemma validated_errors_empty_iff st (perr : gmap string string) :
  foldl (check_field (answers st)) perr (form_fields (form st)) = ∅ ↔
  perr = ∅ ∧
  ∀ f, f ∈ form_fields (form st) → required f = true →
       ¬ blank_per_code (answers st !! id f).
Proof.
  split.
  - intros Hempty.
    assert (∀ k, existsb (field_fails (answers st) k) (form_fields (form st)) = false
                 ∧ perr !! k = None) as Hall.
    { intros k. pose proof (check_fields_lookup (answers st)
        (form_fields (form st)) perr k) as Hk.
      rewrite Hempty, lookup_empty in Hk.
      destruct (existsb _ _); [done|]. by split. }
    split.
    + apply map_eq. intros k. rewrite lookup_empty. apply Hall.
    + intros f Hf Hreq Hblank. apply answer_missing_iff in Hblank.
      destruct (Hall (id f)) as [Hex _].
      assert (existsb (field_fails (answers st) (id f)) (form_fields (form st)) = true)
        as Hyes by (apply existsb_field_fails; by exists f).
      congruence.
  - intros [-> Hfields]. apply map_eq. intros k.
    rewrite check_fields_lookup, lookup_empty.
    destruct (existsb _ _) eqn:Hex; [|done].
    apply existsb_field_fails in Hex as (g & Hg & <- & Hreq & Hmiss).
    apply answer_missing_iff in Hmiss. by destruct (Hfields g Hg Hreq).
Qed.

(** X11.  When the pseudo-field checks raise no exception, [validateForm]
    returns, changes nothing but [errors], and answers [true] exactly when
    it stored no error at all, that is, when no pseudo-field error arose and
    every required field of the form has an answer that is not blank. *)
Theorem validateForm_accepts_iff st (perr : gmap string string) :
  pseudoFieldErrors st = Some perr →
  ∃ st' ok,
    validateForm st = Some (st', ok) ∧
    st' = setErrors (errors st') st ∧
    (ok = true ↔ errors st' = ∅) ∧
    (ok = true ↔
       perr = ∅ ∧
       ∀ f, f ∈ form_fields (form st) → required f = true →
            ¬ blank_per_code (answers st !! id f)).
Proof.
  intros Hperr. eexists _, _.
  split; [by apply validateForm_unfold|].
  split; [done|]. simpl.
  rewrite Nat.eqb_eq, map_size_empty_iff.
  split; [done|]. apply validated_errors_empty_iff.
Qed.

(** X11, witness: the sample viewer. *)
Lemma validateForm_accepts_iff_witness :
  pseudoFieldErrors sample_viewer = Some ∅ ∧
  ∃ st' ok, validateForm sample_viewer = Some (st', ok) ∧
            (ok = true ↔ errors st' = ∅).
Proof.
  split; [reflexivity|].
  destruct (validateForm_accepts_iff sample_viewer ∅ eq_refl)
    as (st' & ok & Hval & _ & Hok & _).
  exists st', ok. split; [exact Hval|exact Hok].
Defined.

(** X12.  [validateForm] raises an exception exactly when a pseudo-field
    that is asked for (the respondent's email or name is not known) holds
    an array as its answer; [handleSubmit] then raises it too, before any
    state is set or any row is sent. *)
Theorem validateForm_throws_iff st :
  (validateForm st = None ↔
     (userEmail st = "" ∧ ∃ l, answers st !! "user_email" = Some (AArr l)) ∨
     (userName st = "" ∧ ∃ l, answers st !! "user_name" = Some (AArr l))) ∧
  (∀ env form_responses,
     handleSubmit env st form_responses = None ↔ validateForm st = None).
Proof.
  assert (validateForm st = None ↔ pseudoFieldErrors st = None) as Hval.
  { unfold validateForm. by destruct (pseudoFieldErrors st). }
  split; [by rewrite Hval, pseudoFieldErrors_None|].
  intros env rs. unfold handleSubmit.
  destruct (validateForm st) as [[st' valid]|]; simpl; [|done].
  split; [|done]. destruct valid; simpl; [|done].
  by destruct (insert_accepted env).
Qed.

(** X13.  For a respondent whose email is not known and a form without a
    field of the id [user_email]: whenever [validateForm] returns, it has
    stored the error ["Email is required"] if the email input is empty or
    blank, and no error under that key otherwise.  The same holds for the
    name. *)
Theorem validateForm_asks_anonymous_identity st st' (ok : bool) :
  validateForm st = Some (st', ok) →
  (userEmail st = "" → id_absent "user_email" (form_fields (form st)) →
     (text_empty (answers st !! "user_email") →
        errors st' !! "user_email" = Some "Email is required") ∧
     (¬ text_empty (answers st !! "user_email") →
        errors st' !! "user_email" = None)) ∧
  (userName st = "" → id_absent "user_name" (form_fields (form st)) →
     (text_empty (answers st !! "user_name") →
        errors st' !! "user_name" = Some "Name is required") ∧
     (¬ text_empty (answers st !! "user_name") →
        errors st' !! "user_name" = None)).
Proof.
  intros Hval.
  destruct (pseudoFieldErrors st) as [perr|] eqn:Hperr.
  2:{ unfold validateForm in Hval. by rewrite Hperr in Hval. }
  rewrite (validateForm_unfold st perr Hperr) in Hval.
  injection Hval as <- _. simpl.
  destruct (pseudoFieldErrors_Some st perr Hperr) as (e & n & -> & He & Hn).
  assert (∀ k, id_absent k (form_fields (form st)) →
            existsb (field_fails (answers st) k) (form_fields (form st)) = false)
    as Hnofield.
  { intros k Habs. destruct (existsb _ _) eqn:Hex; [|done].
    apply existsb_field_fails in Hex as (g & Hg & Hid & _). by destruct (Habs g Hg). }
  split; intros Hanon Habs; rewrite check_fields_lookup, (Hnofield _ Habs).
  - split; intros Hempty.
    + assert (e = true) as -> by (by apply He).
      destruct n; by simplify_map_eq.
    + assert (e = false) as ->.
      { destruct e; [|done]. by destruct He as [[_ ?] _]. }
      destruct n; by simplify_map_eq.
  - split; intros Hempty.
    + assert (n = true) as -> by (by apply Hn).
      by simplify_map_eq.
    + assert (n = false) as ->.
      { destruct n; [|done]. by destruct Hn as [[_ ?] _]. }
      destruct e; by simplify_map_eq.
Qed.

(** X13, witness: the sample form shown to an unknown respondent who has
    typed nothing. *)
Lemma validateForm_asks_anonymous_identity_witness :
  ∃ st', validateForm (Session.setUserEmail "" sample_viewer) = Some (st', false) ∧
         errors st' !! "user_email" = Some "Email is required".
Proof.
  eexists. split; [reflexivity|].
  refine (proj1 (proj1 (validateForm_asks_anonymous_identity
            (Session.setUserEmail "" sample_viewer) _ false eq_refl) eq_refl _)
            (or_introl eq_refl)).
  intros g Hg. apply elem_of_cons in Hg as [->|Hg]; [discriminate|].
  apply list_elem_of_singleton in Hg. subst g. discriminate.
Defined.

End ValidationMore.

Section SubmissionMore.
Import Viewer.
Implicit Types (st : ViewerState) (env : Env) (rs : list Submission).

Lemma validateForm_keeps_state st st' (ok : bool) :
  validateForm st = Some (st', ok) → st' = setErrors (errors st') st.
Proof.
  unfold validateForm. destruct (pseudoFieldErrors st); [|done].
  simpl. by intros [= <- _].
Qed.

Lemma validateForm_true_inv st st1 :
  validateForm st = Some (st1, true) →
  pseudoFieldErrors st = Some ∅ ∧ errors st1 = ∅ ∧
  ∀ f, f ∈ form_fields (form st) → required f = true →
       ¬ blank_per_code (answers st !! id f).
Proof.
  intros Hval.
  destruct (pseudoFieldErrors st) as [perr|] eqn:Hperr.
  2:{ unfold validateForm in Hval. by rewrite Hperr in Hval. }
  rewrite (validateForm_unfold st perr Hperr) in Hval.
  injection Hval as <- Hsize. simpl.
  apply Nat.eqb_eq, map_size_empty_iff in Hsize.
  pose proof Hsize as [-> Hfields]%validated_errors_empty_iff.
  by rewrite Hsize.
Qed.

(** The three ways in which [handleSubmit] returns. *)
Lemma handleSubmit_cases env st rs st' rs' :
  handleSubmit env st rs = Some (st', rs') →
  ∃ st1 valid,
    validateForm st = Some (st1, valid) ∧
    ((valid = false ∧ st' = st1 ∧ rs' = rs) ∨
     (valid = true ∧ insert_accepted env = false ∧
        st' = setSubmitting false st1 ∧ rs' = rs) ∨
     (valid = true ∧ insert_accepted env = true ∧
        st' = setSubmitting false (setSubmitted true st1) ∧
        rs' = (rs ++ [submission_of env st1])%list)).
Proof.
  unfold handleSubmit.
  destruct (validateForm st) as [[st1 valid]|]; [|done]. simpl.
  intros Hret. exists st1, valid. split; [done|].
  destruct valid; simpl in Hret.
  - destruct (insert_accepted env); injection Hret as <- <-.
    + by right; right.
    + by right; left.
  - injection Hret as <- <-. by left.
Qed.

Lemma with_property_lookup (k k' : string) (v : option Answer) (m : gmap string Answer) :
  with_property k v m !! k' = if decide (k = k') then v else m !! k'.
Proof.
  unfold with_property. destruct v; case_decide; by simplify_map_eq.
Qed.

Lemma validated_messages_nonempty st st' (ok : bool) (k m : string) :
  validateForm st = Some (st', ok) → errors st' !! k = Some m → m ≠ "".
Proof.
  intros Hval Hm.
  destruct (pseudoFieldErrors st) as [perr|] eqn:Hperr.
  2:{ unfold validateForm in Hval. by rewrite Hperr in Hval. }
  rewrite (validateForm_unfold st perr Hperr) in Hval.
  injection Hval as <- _. simpl in Hm.
  rewrite check_fields_lookup in Hm.
  destruct (existsb _ _); [by injection Hm as <-|].
  destruct (pseudoFieldErrors_Some st perr Hperr) as (e & n & -> & _).
  destruct e, n;
    try (apply lookup_insert_Some in Hm as [[_ <-]|[_ Hm]]; [done|]);
    try (apply lookup_singleton_Some in Hm as [_ <-]; done);
    by rewrite lookup_empty in Hm.
Qed.

(** X14.  Every message that [validateForm] stores is a non-empty text, so
    an answer given to a field that has an error always removes that error
    at once, and no other. *)
Theorem updateAnswer_clears_validation_error st st' (ok : bool) (k m : string)
    (value : Answer) :
  validateForm st = Some (st', ok) →
  errors st' !! k = Some m →
  m ≠ "" ∧
  errors (updateAnswer k value st') = delete k (errors st').
Proof.
  intros Hval Hm.
  pose proof (validated_messages_nonempty st st' ok k m Hval Hm) as Hne.
  split; [done|].
  unfold updateAnswer. rewrite Hm. unfold Js.truthy_string.
  by rewrite (proj2 (String.eqb_neq m "") Hne).
Qed.

(** X14, witness: the error of the sample text field goes away with the
    first character typed. *)
Lemma updateAnswer_clears_validation_error_witness :
  ∃ st', validateForm sample_viewer = Some (st', false) ∧
         errors st' !! "field_1" = Some required_message ∧
         errors (updateAnswer "field_1" (AStr "A") st') = delete "field_1" (errors st').
Proof.
  eexists. split; [reflexivity|]. split; [reflexivity|].
  exact (proj2 (updateAnswer_clears_validation_error sample_viewer _ false
                  "field_1" required_message (AStr "A") eq_refl eq_refl)).
Defined.

Lemma known_or_text st1 (k : string) (known : string) (e : bool) :
  (e = true ↔ known = "" ∧ text_empty (answers st1 !! k)) → e = false →
  (∀ l, known = "" → answers st1 !! k ≠ Some (AArr l)) →
  ∃ s, known_or known (answers st1 !! k) = Some (AStr s) ∧ s ≠ "".
Proof.
  intros He -> Harr. unfold known_or.
  destruct (Js.truthy_string known) eqn:Hk.
  - exists known. split; [done|]. intros ->. discriminate Hk.
  - apply truthy_string_false_iff in Hk.
    destruct (answers st1 !! k) as [[s|l]|] eqn:Hans.
    + exists s. split; [done|]. intros ->.
      assert (false = true) as [=]. apply He. split; [done|].
      right. by exists "".
    + by destruct (Harr l Hk).
    + assert (false = true) as [=]. apply He. split; [done|]. by left.
Qed.

(** X15.  When validation passes and the store accepts the row,
    [handleSubmit] appends exactly one response and marks the form as
    submitted.  The response answers every required form field that has no
    reserved id, carries a non-empty email and name (the known ones, else
    the typed ones), every other answer as given, zero tab switches, and a
    time within half a second of the elapsed milliseconds. *)
Theorem handleSubmit_appends_response env st st1 rs :
  validateForm st = Some (st1, true) →
  insert_accepted env = true →
  ∃ r,
    handleSubmit env st rs
      = Some (setSubmitting false (setSubmitted true st1), (rs ++ [r])%list) ∧
    answers st1 = answers st ∧
    sub_form_id r = formId env ∧ sub_user_id r = auth_user env ∧
    user_agent r = userAgent env ∧ tab_switches r = 0 ∧
    (∀ k, k ≠ "user_email" → k ≠ "user_name" →
       sub_answers r !! k = answers st !! k) ∧
    (∀ f, f ∈ form_fields (form st) → required f = true →
       id f ≠ "user_email" → id f ≠ "user_name" →
       ¬ blank_per_code (sub_answers r !! id f)) ∧
    (∃ s, sub_answers r !! "user_email" = Some (AStr s) ∧ s ≠ "") ∧
    (∃ s, sub_answers r !! "user_name" = Some (AStr s) ∧ s ≠ "") ∧
    1000 * time_taken r - 500 ≤ now env - startTime st < 1000 * time_taken r + 500 ∧
    (startTime st ≤ now env → 0 ≤ time_taken r).
Proof.
  intros Hval Haccept.
  pose proof (validateForm_keeps_state st st1 true Hval) as Hst1.
  assert (answers st1 = answers st ∧ userEmail st1 = userEmail st ∧
          userName st1 = userName st ∧ startTime st1 = startTime st)
    as (Hans & Hue & Hun & Hstart) by (by rewrite Hst1).
  exists (submission_of env st1). split.
  { unfold handleSubmit. rewrite Hval. simpl. by rewrite Haccept. }
  split; [done|]. repeat (split; [done|]).
  destruct (validateForm_true_inv st st1 Hval) as (Hperr & _ & Hfields).
  destruct (pseudoFieldErrors_Some st ∅ Hperr) as (e & n & Hmap & He & Hn).
  assert (e = false ∧ n = false) as [-> ->].
  { destruct e, n; try done; exfalso;
      first [ by apply (f_equal (lookup "user_name")) in Hmap; simplify_map_eq
            | by apply (f_equal (lookup "user_email")) in Hmap; simplify_map_eq ]. }
  assert (pseudoFieldErrors st ≠ None) as Hnothrow by (by rewrite Hperr).
  rewrite pseudoFieldErrors_None in Hnothrow.
  simpl. rewrite Hans, Hue, Hun, Hstart.
  split; [|split; [|split; [|split; [|split]]]].
  - intros k Hk1 Hk2. rewrite !with_property_lookup.
    by rewrite !decide_False by done.
  - intros f Hf Hreq Hk1 Hk2. rewrite !with_property_lookup.
    rewrite !decide_False by done. by apply Hfields.
  - rewrite !with_property_lookup. rewrite decide_False by done.
    rewrite decide_True by done.
    apply (known_or_text st "user_email" (userEmail st) false); [done|done|].
    intros l Hz Hl. apply Hnothrow. left. split; [done|]. by exists l.
  - rewrite !with_property_lookup. rewrite decide_True by done.
    apply (known_or_text st "user_name" (userName st) false); [done|done|].
    intros l Hz Hl. apply Hnothrow. right. split; [done|]. by exists l.
  - pose proof (Z.div_mod (now env - startTime st + 500) 1000 ltac:(lia)).
    pose proof (Z.mod_pos_bound (now env - startTime st + 500) 1000 ltac:(lia)).
    lia.
  - intros Hle. apply Z.div_pos; lia.
Qed.

(** X15, witness: the sample respondent has filled in the text field. *)
Lemma handleSubmit_appends_response_witness :
  ∃ st1 r,
    validateForm (updateAnswer "field_1" (AStr "Ann") sample_viewer) = Some (st1, true) ∧
    handleSubmit sample_env (updateAnswer "field_1" (AStr "Ann") sample_viewer) []
      = Some (setSubmitting false (setSubmitted true st1), [r]) ∧
    time_taken r = 60.
Proof.
  eexists. 
  destruct (handleSubmit_appends_response sample_env
              (updateAnswer "field_1" (AStr "Ann") sample_viewer) _ []
              eq_refl eq_refl) as (r & Hsub & _).
  exists r. split; [reflexivity|]. split; [exact Hsub|].
  vm_compute in Hsub. by injection Hsub as <-.
Defined.

(** X16.  However [handleSubmit] returns, the responses stored before are
    still there, in order, followed by at most one new row; the answers,
    the form and the respondent's identity are as before, so a failed
    attempt can be repeated; and without a new row the [submitted] flag is
    unchanged, while a new row comes with [submitted] set and an empty
    error map. *)
Theorem handleSubmit_append_only env st rs st' rs' :
  handleSubmit env st rs = Some (st', rs') →
  answers st' = answers st ∧ form st' = form st ∧
  userEmail st' = userEmail st ∧ userName st' = userName st ∧
  (rs' = rs ∧ submitted st' = submitted st ∨
   ∃ r, rs' = (rs ++ [r])%list ∧ submitted st' = true ∧ errors st' = ∅ ∧
        insert_accepted env = true).
Proof.
  intros (st1 & valid & Hval & Hcases)%handleSubmit_cases.
  pose proof (validateForm_keeps_state st st1 valid Hval) as Hst1.
  assert (valid = true → errors st1 = ∅) as Hclean.
  { intros ->. by destruct (validateForm_true_inv st st1 Hval) as (_ & ? & _). }
  destruct Hcases as [(-> & -> & ->)|[(-> & Hacc & -> & ->)|(-> & Hacc & -> & ->)]];
    rewrite Hst1; simpl; repeat (split; [done|]).
  - by left.
  - by left.
  - right. eexists. split; [done|]. split; [done|]. split; [by apply Hclean|done].
Qed.

(** X16, witness: the failed attempt on the sample viewer. *)
Lemma handleSubmit_append_only_witness :
  ∃ st', handleSubmit sample_env sample_viewer [] = Some (st', []) ∧
         answers st' = answers sample_viewer.
Proof.
  eexists. split; [reflexivity|].
  exact (proj1 (handleSubmit_append_only sample_env sample_viewer [] _ [] eq_refl)).
Defined.

End SubmissionMore.

Section AnsweringMore.
Import Viewer.
Implicit Types (st : ViewerState) (field : FormField) (opt : string).

Lemma ViewerState_eq st1 st2 :
  form st1 = form st2 → submitting st1 = submitting st2 →
  submitted st1 = submitted st2 → answers st1 = answers st2 →
  errors st1 = errors st2 → startTime st1 = startTime st2 →
  userEmail st1 = userEmail st2 → userName st1 = userName st2 →
  st1 = st2.
Proof. destruct st1, st2. simpl. by intros -> -> -> -> -> -> -> ->. Qed.

Lemma updateAnswer_errors_lookup (k k' : string) (value : Answer) st :
  k' ≠ k → errors (updateAnswer k value st) !! k' = errors st !! k'.
Proof.
  intros Hne. destruct (updateAnswer_errors k value st) as [->| ->]; [done|].
  by rewrite lookup_delete_ne.
Qed.

Lemma updateAnswer_other_parts (k : string) (value : Answer) st :
  form (updateAnswer k value st) = form st ∧
  submitting (updateAnswer k value st) = submitting st ∧
  submitted (updateAnswer k value st) = submitted st ∧
  startTime (updateAnswer k value st) = startTime st ∧
  userEmail (updateAnswer k value st) = userEmail st ∧
  userName (updateAnswer k value st) = userName st.
Proof.
  unfold updateAnswer. by destruct (match _ with Some _ => _ | None => _ end).
Qed.

(** X17.  Answers given to different fields can be given in either order
    with the same resulting state; of two answers given to the same field
    the later one is stored; and [updateAnswer] never adds an error. *)
Theorem updateAnswer_composes (k1 k2 : string) (v1 v2 : Answer) st :
  (k1 ≠ k2 →
     updateAnswer k1 v1 (updateAnswer k2 v2 st)
       = updateAnswer k2 v2 (updateAnswer k1 v1 st)) ∧
  answers (updateAnswer k1 v2 (updateAnswer k1 v1 st))
    = answers (updateAnswer k1 v2 st) ∧
  errors (updateAnswer k1 v1 st) ⊆ errors st.
Proof.
  split; [|split].
  - intros Hne.
    destruct (updateAnswer_other_parts k1 v1 (updateAnswer k2 v2 st))
      as (? & ? & ? & ? & ? & ?).
    destruct (updateAnswer_other_parts k2 v2 (updateAnswer k1 v1 st))
      as (? & ? & ? & ? & ? & ?).
    destruct (updateAnswer_other_parts k1 v1 st) as (? & ? & ? & ? & ? & ?).
    destruct (updateAnswer_other_parts k2 v2 st) as (? & ? & ? & ? & ? & ?).
    apply ViewerState_eq; try congruence.
    + rewrite !updateAnswer_answers. by apply insert_insert_ne.
    + unfold updateAnswer at 1 3.
      rewrite (updateAnswer_errors_lookup k2 k1 v2 st) by done.
      rewrite (updateAnswer_errors_lookup k1 k2 v1 st) by done.
      unfold updateAnswer.
      destruct (match errors st !! k1 with Some m => _ | None => _ end);
        destruct (match errors st !! k2 with Some m => _ | None => _ end);
        simpl; try done.
      apply delete_delete.
  - rewrite !updateAnswer_answers. apply insert_insert_eq.
  - destruct (updateAnswer_errors k1 v1 st) as [->| ->]; [done|].
    apply delete_subseteq.
Qed.

(** X18.  Unticking an option of a checkbox field removes every occurrence
    of it from the stored sequence and keeps the other options in their
    order; when the option was not ticked, the sequence stays as it is.
    Ticking puts the option after the ones ticked before.  When a
    non-empty string is stored under the field's id, unticking raises an
    exception and ticking stores the characters of the string followed by
    the option. *)
Theorem checkbox_untick_removes_option field opt st :
  (∀ cur, currentOptions field st = AArr cur →
     ∃ l, (answers <$> onCheckedChange field opt false st) 
            = Some (<[id field := AArr l]> (answers st)) ∧
          (opt ∉ l) ∧ l `sublist_of` cur ∧
          (∀ o, o ≠ opt → (o ∈ l ↔ o ∈ cur)) ∧
          (opt ∉ cur → l = cur)) ∧
  (∀ cur, currentOptions field st = AArr cur →
     (answers <$> onCheckedChange field opt true st)
       = Some (<[id field := AArr (cur ++ [opt])%list]> (answers st))) ∧
  (∀ s, currentOptions field st = AStr s →
     s ≠ "" ∧ answers st !! id field = Some (AStr s) ∧
     onCheckedChange field opt false st = None ∧
     (answers <$> onCheckedChange field opt true st)
       = Some (<[id field := AArr (Js.spread_string s ++ [opt])%list]> (answers st))).
Proof.
  split; [|split].
  - intros cur Hcur.
    exists (List.filter (λ o, negb (String.eqb o opt)) cur).
    assert (∀ o, o ∈ List.filter (λ o, negb (String.eqb o opt)) cur
                 ↔ o ∈ cur ∧ o ≠ opt) as Hmem.
    { intros o. by rewrite !list_elem_of_In, filter_In, negb_true_iff, String.eqb_neq. }
    split; [|split; [|split; [|split]]].
    + unfold onCheckedChange. rewrite Hcur. simpl. by rewrite updateAnswer_answers.
    + intros Hin. by apply Hmem in Hin as [_ ?].
    + clear. induction cur as [|x rest IH]; [done|]. simpl.
      destruct (negb _); [by apply sublist_skip|by apply sublist_cons].
    + intros o Hne. rewrite Hmem. by intuition.
    + intros Hnotin. clear Hmem Hcur.
      induction cur as [|x rest IH]; [done|]. simpl.
      apply not_elem_of_cons in Hnotin as [Hne Hrest].
      rewrite (proj2 (String.eqb_neq x opt)) by done. simpl.
      f_equal. by apply IH.
  - intros cur Hcur. unfold onCheckedChange. rewrite Hcur. simpl.
    by rewrite updateAnswer_answers.
  - intros s Hcur. unfold onCheckedChange. rewrite Hcur. simpl.
    rewrite updateAnswer_answers.
    unfold currentOptions in Hcur.
    destruct (answers st !! id field) as [[s'|l]|] eqn:Hans; simpl in Hcur.
    + destruct (Js.truthy_string s') eqn:Hs'; [|done].
      injection Hcur as ->. repeat split; try done.
      intros ->. discriminate Hs'.
    + done.
    + done.
Qed.

End AnsweringMore.

Section SessionFacts.
Import Viewer Session.
Implicit Types (st : ViewerState).

Lemma handleSubmit_row_identity (env : Env) st (rs rs' : list Submission) st2 :
  handleSubmit env st rs = Some (st2, rs') →
  rs' = rs ∨
  ∃ r, rs' = (rs ++ [r])%list ∧
       sub_answers r !! "user_email"
         = known_or (userEmail st) (answers st !! "user_email") ∧
       sub_answers r !! "user_name"
         = known_or (userName st) (answers st !! "user_name").
Proof.
  intros (st1 & valid & Hval & Hcases)%handleSubmit_cases.
  pose proof (validateForm_keeps_state st st1 valid Hval) as Hst1.
  destruct Hcases as [(_ & _ & ->)|[(_ & _ & _ & ->)|(_ & _ & _ & ->)]];
    [by left|by left|].
  right. exists (submission_of env st1). split; [done|].
  rewrite Hst1. simpl. rewrite !with_property_lookup. done.
Qed.

(** X19.  Without a signed-in user [checkUserSession] changes nothing.  For
    a signed-in user it sets email and name and nothing else.  When both
    are non-empty, validation asks for neither and cannot raise an
    exception, whatever the answers are, so [handleSubmit] returns, and
    every row it sends carries exactly this email and name.  When the
    profile has no name and none is typed, the name is asked for: every
    return of [handleSubmit] has sent nothing and has stored an error under
    [user_name], the message ["Name is required"] when no form field has
    that id; and with a known email [handleSubmit] does return. *)
Theorem checkUserSession_identity (email name : option string) st :
  checkUserSession None name st = st ∧
  (let st1 := checkUserSession (Some email) name st in
   answers st1 = answers st ∧ errors st1 = errors st ∧ form st1 = form st ∧
   submitted st1 = submitted st ∧ submitting st1 = submitting st ∧
   startTime st1 = startTime st ∧
   userEmail st1 = or_empty email ∧ userName st1 = or_empty name ∧
   (or_empty email ≠ "" → or_empty name ≠ "" →
      pseudoFieldErrors st1 = Some ∅ ∧
      validateForm st1 = Some (validateForm_fieldsOnly st1) ∧
      ∀ env rs,
        is_Some (handleSubmit env st1 rs) ∧
        ∀ st2 rs', handleSubmit env st1 rs = Some (st2, rs') →
          rs' = rs ∨
          ∃ r, rs' = (rs ++ [r])%list ∧
               sub_answers r !! "user_email" = Some (AStr (or_empty email)) ∧
               sub_answers r !! "user_name" = Some (AStr (or_empty name))) ∧
   (or_empty name = "" → text_empty (answers st !! "user_name") →
      ∀ env rs,
        (or_empty email ≠ "" → is_Some (handleSubmit env st1 rs)) ∧
        ∀ st2 rs', handleSubmit env st1 rs = Some (st2, rs') →
          rs' = rs ∧ submitted st2 = submitted st ∧
          is_Some (errors st2 !! "user_name") ∧
          (id_absent "user_name" (form_fields (form st)) →
             errors st2 !! "user_name" = Some "Name is required"))).
Proof.
  split; [done|]. cbv zeta.
  set (st1 := checkUserSession (Some email) name st).
  assert (answers st1 = answers st ∧ form st1 = form st ∧
          userEmail st1 = or_empty email ∧ userName st1 = or_empty name ∧
          submitted st1 = submitted st)
    as (Hans & Hfm & Hue & Hun & Hsub) by done.
  repeat (split; [done|]).
  assert (∀ s, s ≠ "" → Js.truthy_string s = true) as Htruthy.
  { intros s Hs. destruct (Js.truthy_string s) eqn:H; [done|].
    by apply truthy_string_false_iff in H. }
  assert (∀ env rs, is_Some (validateForm st1) → is_Some (handleSubmit env st1 rs))
    as Hreturns.
  { intros env rs [[st' valid] Hval]. unfold handleSubmit. rewrite Hval. simpl.
    destruct valid; simpl; [destruct (insert_accepted env)|]; by eexists. }
  split.
  - intros He Hn.
    pose proof (Htruthy _ He) as Hte. pose proof (Htruthy _ Hn) as Htn.
    assert (pseudoFieldErrors st1 = Some ∅) as Hperr
      by (apply pseudoFieldErrors_known; by rewrite ?Hue, ?Hun).
    assert (validateForm st1 = Some (validateForm_fieldsOnly st1)) as Hval
      by (apply validateForm_known_fieldsOnly; by rewrite ?Hue, ?Hun).
    split; [done|]. split; [done|]. intros env rs.
    split; [apply Hreturns; rewrite Hval; by eexists|].
    intros st2 rs' Hrun.
    destruct (handleSubmit_row_identity env st1 rs rs' st2 Hrun)
      as [?|(r & -> & Hemail & Hname)]; [by left|].
    right. exists r. split; [done|].
    rewrite Hemail, Hname, Hue, Hun. unfold known_or. by rewrite Hte, Htn.
  - intros Hnoname Hempty env rs.
    assert (∀ st' valid, validateForm st1 = Some (st', valid) →
              valid = false ∧ is_Some (errors st' !! "user_name") ∧
              (id_absent "user_name" (form_fields (form st)) →
                 errors st' !! "user_name" = Some "Name is required") ∧
              submitted st' = submitted st) as Hasked.
    { intros st' valid Hval.
      destruct (pseudoFieldErrors st1) as [perr|] eqn:Hperr.
      2:{ unfold validateForm in Hval. by rewrite Hperr in Hval. }
      rewrite (validateForm_unfold st1 perr Hperr) in Hval.
      assert (perr !! "user_name" = Some "Name is required") as Hname.
      { destruct (pseudoFieldErrors_Some st1 perr Hperr) as (e & n & -> & _ & Hn).
        assert (n = true) as -> by (apply Hn; by rewrite Hun, Hans).
        by rewrite lookup_insert_eq. }
      pose proof (check_fields_lookup (answers st1) (form_fields (form st1)) perr
                    "user_name") as Hlook.
      rewrite Hname in Hlook.
      set (E := foldl (check_field (answers st1)) perr (form_fields (form st1))) in *.
      assert (is_Some (E !! "user_name")) as Hsome.
      { rewrite Hlook. destruct (existsb _ _); by eexists. }
      assert (id_absent "user_name" (form_fields (form st)) →
              E !! "user_name" = Some "Name is required") as Hmsg.
      { intros Habs. rewrite Hlook.
        destruct (existsb _ _) eqn:Hex; [|done].
        apply existsb_field_fails in Hex as (g & Hg & Hid & _).
        rewrite Hfm in Hg. by destruct (Habs g Hg). }
      clearbody E. injection Hval as <- <-.
      split; [|split; [done|split; [done|done]]].
      apply Nat.eqb_neq. intros Hsize%map_size_empty_iff.
      rewrite Hsize, lookup_empty in Hsome. by destruct Hsome. }
    split.
    + intros He. apply Hreturns.
      assert (is_Some (pseudoFieldErrors st1)) as [perr Hperr].
      { destruct (pseudoFieldErrors st1) eqn:Hp; [by eexists|].
        apply pseudoFieldErrors_None in Hp
          as [[Hz _]|[_ [l Hl]]]; [by rewrite Hue in Hz|].
        rewrite Hans in Hl. rewrite Hl in Hempty.
        by destruct Hempty as [[=]|(s & [=] & _)]. }
      rewrite (validateForm_unfold st1 perr Hperr). by eexists.
    + intros st2 rs' (st' & valid & Hval & Hcases)%handleSubmit_cases.
      destruct (Hasked st' valid Hval) as (-> & Hsome & Hmsg & Hsubmitted).
      destruct Hcases as [(_ & -> & ->)|[([=] & _)|([=] & _)]].
      done.
Qed.

End SessionFacts.

Section EarlierRevision.
Import Viewer.
Implicit Types (st : ViewerState).

(** X20.  The earlier revision of [validateForm], which has no
    pseudo-fields, stores exactly the errors of the form fields: whenever
    the current [validateForm] returns, its error map is the earlier one
    with the pseudo-field errors added under the keys that no failing field
    occupies, and for a respondent whose email and name are known the two
    revisions return the same state and verdict. *)
Theorem validateForm_extends_fieldsOnly st (perr : gmap string string) :
  pseudoFieldErrors st = Some perr →
  ∃ st' ok,
    validateForm st = Some (st', ok) ∧
    (∀ k, errors st' !! k =
            match errors (validateForm_fieldsOnly st).1 !! k with
            | Some m => Some m
            | None => perr !! k
            end) ∧
    (ok = true → (validateForm_fieldsOnly st).2 = true) ∧
    (Js.truthy_string (userEmail st) = true → Js.truthy_string (userName st) = true →
       (st', ok) = validateForm_fieldsOnly st).
Proof.
  intros Hperr. eexists _, _.
  split; [by apply validateForm_unfold|]. simpl.
  split; [|split].
  - intros k. rewrite !check_fields_lookup, lookup_empty.
    by destruct (existsb _ _).
  - rewrite !Nat.eqb_eq, !map_size_empty_iff. intros Hempty.
    apply map_eq. intros k. rewrite lookup_empty, check_fields_lookup, lookup_empty.
    apply (f_equal (lookup k)) in Hempty.
    rewrite check_fields_lookup, lookup_empty in Hempty.
    by destruct (existsb _ _).
  - intros He Hn. rewrite (pseudoFieldErrors_known st He Hn) in Hperr.
    by injection Hperr as <-.
Qed.

(** X20, witness: the sample viewer, whose respondent is known. *)
Lemma validateForm_extends_fieldsOnly_witness :
  pseudoFieldErrors sample_viewer = Some ∅ ∧
  validateForm sample_viewer = Some (validateForm_fieldsOnly sample_viewer).
Proof.
  split; [reflexivity|].
  destruct (validateForm_extends_fieldsOnly sample_viewer ∅ eq_refl)
    as (st' & ok & Hval & _ & _ & Hsame).
  rewrite Hval. f_equal. exact (Hsame eq_refl eq_refl).
Defined.

End EarlierRevision.

(** * The responses page *)

Section CsvExport.
Import Viewer Responses.
Local Open Scope list_scope.
Variable format_date : string → string.
Implicit Types (fm : Form) (responses : list FormResponse).

Lemma foldl_snoc {A B} (g : B → A) (init : list A) (l : list B) :
  foldl (λ acc x, acc ++ [g x]) init l = init ++ (g <$> l).
Proof.
  revert init. induction l as [|x rest IH]; intros init; simpl.
  - by rewrite app_nil_r.
  - rewrite IH. by rewrite <- app_assoc.
Qed.

Lemma headers_eq fm :
  headers fm = ["Submitted At"; "Name"; "Email"; "Time Taken (seconds)"]
               ++ (label <$> fields fm).
Proof. unfold headers. apply (foldl_snoc label). Qed.

Lemma response_row_eq fm (r : FormResponse) :
  response_row format_date fm r =
    [ format_date (submitted_at r);
      or_NA (response_answers r !! "user_name");
      or_NA (response_answers r !! "user_email");
      time_cell (response_time_taken r) ]
    ++ ((λ f, field_cell (response_answers r !! id f)) <$> fields fm).
Proof.
  unfold response_row.
  apply (foldl_snoc (λ f, field_cell (response_answers r !! id f))).
Qed.

Lemma csvData_eq fm responses :
  csvData format_date fm responses
    = headers fm :: (response_row format_date fm <$> responses).
Proof. unfold csvData. apply (foldl_snoc (response_row format_date fm)). Qed.

(** X21.  [exportToCSV] produces no file exactly when there is no form or
    no response.  Otherwise the table has one header row and one row per
    response, in the order of the responses; every row has four leading
    cells and one cell per form field, and the header names the fields by
    their labels in the order of the form. *)
Theorem exportToCSV_table_shape (form : option Form) responses :
  (exportToCSV format_date form responses = None ↔ form = None ∨ responses = []) ∧
  (∀ fm, form = Some fm → responses ≠ [] →
     exportToCSV format_date form responses
       = Some (form_title fm +:+ "_responses.csv",
               csvContent (csvData format_date fm responses))) ∧
  (∀ fm,
     length (csvData format_date fm responses) = S (length responses) ∧
     (∀ row, row ∈ csvData format_date fm responses →
        length row = (4 + length (fields fm))%nat) ∧
     csvData format_date fm responses !! 0%nat
       = Some (["Submitted At"; "Name"; "Email"; "Time Taken (seconds)"]
               ++ (label <$> fields fm))).
Proof.
  split; [|split].
  - unfold exportToCSV. destruct form as [fm|]; [|by split; auto].
    destruct responses as [|r rest]; simpl.
    + split; [by auto|done].
    + split; [done|]. by intros [[=]|[=]].
  - intros fm -> Hne. unfold exportToCSV.
    by destruct responses.
  - intros fm. rewrite csvData_eq. simpl. rewrite length_fmap.
    split; [done|]. split; [|by rewrite headers_eq].
    intros row [->|Hrow]%elem_of_cons.
    + rewrite headers_eq, length_app, length_fmap. done.
    + apply list_elem_of_fmap in Hrow as (r & -> & _).
      rewrite response_row_eq, length_app, length_fmap. done.
Qed.

(** X22.  The columns of the table line up: in the row of the response at
    position [j], the cell under the header of the form field at position
    [i] is the text of that response's answer to that field (an array
    joined with [", "], a string as it is, nothing when there is no
    answer); the second and third cells are the name and email of the
    response, or ["N/A"]. *)
Theorem exportToCSV_columns_line_up fm responses (j i : nat)
    (r : FormResponse) (f : FormField) :
  responses !! j = Some r →
  fields fm !! i = Some f →
  ∃ header row,
    csvData format_date fm responses !! 0%nat = Some header ∧
    csvData format_date fm responses !! S j = Some row ∧
    header !! (4 + i)%nat = Some (label f) ∧
    row !! (4 + i)%nat = Some (field_cell (response_answers r !! id f)) ∧
    row !! 1%nat = Some (or_NA (response_answers r !! "user_name")) ∧
    row !! 2%nat = Some (or_NA (response_answers r !! "user_email")) ∧
    row !! 3%nat = Some (time_cell (response_time_taken r)).
Proof.
  intros Hj Hi. exists (headers fm), (response_row format_date fm r).
  rewrite csvData_eq. simpl.
  split; [done|]. split; [by rewrite list_lookup_fmap, Hj|].
  rewrite headers_eq, response_row_eq. simpl.
  rewrite !list_lookup_fmap, Hi. done.
Qed.

End CsvExport.

Section CsvSample.
Import Viewer Responses.

(** X22, witness: one response to the sample form, with both boxes ticked. *)
Lemma exportToCSV_columns_line_up_witness :
  ∃ row,
    csvData (λ s, s) {| form_id := "form-1"; form_title := "Survey";
                        form_description := "";
                        fields := [sample_text; sample_boxes] |}
      [ {| response_id := "r1";
           response_answers :=
             {[ "field_2" := AArr ["Option 1"; "Option 2"] ]};
           submitted_at := "2025-07-01";
           response_time_taken := Some 0 |} ] !! 1%nat = Some row ∧
    row !! 5%nat = Some "Option 1, Option 2".
Proof.
  destruct (exportToCSV_columns_line_up (λ s, s)
              {| form_id := "form-1"; form_title := "Survey";
                 form_description := "";
                 fields := [sample_text; sample_boxes] |}
              [ {| response_id := "r1";
                   response_answers :=
                     {[ "field_2" := AArr ["Option 1"; "Option 2"] ]};
                   submitted_at := "2025-07-01";
                   response_time_taken := Some 0 |} ]
              0 1 _ sample_boxes eq_refl eq_refl)
    as (header & row & _ & Hrow & _ & Hcell & _).
  exists row. split; [exact Hrow|exact Hcell].
Defined.

Lemma sum_times_bounds (lo hi acc : Z) (responses : list FormResponse) :
  (∀ r, r ∈ responses →
     lo ≤ match response_time_taken r with Some t => t | None => 0 end ≤ hi) →
  acc + Z.of_nat (length responses) * lo
    ≤ foldl (λ acc r, acc + match response_time_taken r with
                            | Some t => t | None => 0 end) acc responses
    ≤ acc + Z.of_nat (length responses) * hi.
Proof.
  revert acc. induction responses as [|r rest IH]; intros acc Hall.
  - simpl. lia.
  - simpl foldl.
    pose proof (Hall r (list_elem_of_here _ _)) as Hr.
    specialize (IH (acc + match response_time_taken r with
                          | Some t => t | None => 0 end)).
    destruct IH as [IHlo IHhi].
    { intros r' Hr'. apply Hall. by apply list_elem_of_further. }
    rewrite length_cons, Nat2Z.inj_succ. lia.
Qed.

(** X23.  The average time shown on the responses page is 0 when there is
    no response; otherwise it lies between the smallest and the largest
    time of the responses, a response without a time counting as 0. *)
Theorem avgTimeSpent_between (lo hi : Z) (responses : list FormResponse) :
  avgTimeSpent [] = 0 ∧
  (responses ≠ [] →
   (∀ r, r ∈ responses →
      lo ≤ match response_time_taken r with Some t => t | None => 0 end ≤ hi) →
   lo ≤ avgTimeSpent responses ≤ hi).
Proof.
  split; [done|]. intros Hne Hall.
  unfold avgTimeSpent.
  destruct responses as [|r0 rest]; [done|].
  set (rs := r0 :: rest) in *.
  assert (0 < Z.of_nat (length rs)) as Hn by (subst rs; simpl; lia).
  replace (0 <? length rs)%nat with true
    by (symmetry; apply Nat.ltb_lt; subst rs; simpl; lia).
  pose proof (sum_times_bounds lo hi 0 rs Hall) as [Hlo Hhi].
  split.
  - apply Z.div_le_lower_bound; nia.
  - apply Z.lt_succ_r. apply Z.div_lt_upper_bound; nia.
Qed.

(** X23, witness: times of 10 and 15 seconds average to 13. *)
Lemma avgTimeSpent_between_witness :
  10 ≤ avgTimeSpent
         [ {| response_id := "r1"; response_answers := ∅;
              submitted_at := ""; response_time_taken := Some 10 |};
           {| response_id := "r2"; response_answers := ∅;
              submitted_at := ""; response_time_taken := Some 15 |} ] ≤ 15.
Proof.
  apply (proj2 (avgTimeSpent_between 10 15 _)); [discriminate|].
  intros r Hr. apply elem_of_cons in Hr as [->|Hr]; [simpl; lia|].
  apply list_elem_of_singleton in Hr. subst r. simpl. lia.
Defined.

End CsvSample.

(** * The signup trigger *)

Section SignupFacts.
Import Signup.
Implicit Types (new : AuthUser) (users : gmap string UserRow).

Lemma split_part_first_prefix (s : string) :
  ∃ rest, s = split_part_first "@" s +:+ rest ∧
          (rest = "" ∨ ∃ rest', rest = "@" +:+ rest').
Proof.
  induction s as [|c s IH]; simpl.
  - exists "". by auto.
  - destruct (Ascii.eqb_spec c "@") as [->|Hne].
    + exists (String "@" s). split; [done|]. right. by exists s.
    + destruct IH as (rest & Heq & Hrest). exists rest.
      split; [|done].
      change (String c (split_part_first "@" s) +:+ rest)
        with (String c (split_part_first "@" s +:+ rest)).
      by rewrite <- Heq.
Qed.

Lemma split_part_first_no_delimiter (s a b : string) :
  split_part_first "@" s ≠ a +:+ "@" +:+ b.
Proof.
  revert a. induction s as [|c s IH]; intros a; simpl.
  - by destruct a.
  - destruct (Ascii.eqb_spec c "@") as [->|Hne]; [by destruct a|].
    destruct a as [|c' a]; simpl.
    + intros [= -> _]. done.
    + intros [= _ Heq]. by apply (IH a).
Qed.

(** X24.  For a new auth user that has an email and no profile row yet,
    the signup trigger succeeds and adds one row under the user's id,
    leaving all other rows alone.  The row holds the email and a name that
    is taken from the metadata key [name] if present, else from
    [full_name], else is the part of the email before the first ["@"]
    (which contains no ["@"]).  Without an email, or with a row already
    there, the trigger fails and nothing is added. *)
Theorem handle_new_user_derives_name new users (email : string) :
  new_email new = Some email →
  users !! new_id new = None →
  (∃ name,
     handle_new_user new users
       = Some (<[new_id new := {| user_email := email; user_name := name |}]> users) ∧
     derived_name new = Some name ∧
     (∀ n, json_text (raw_user_meta_data new) "name" = Some n → name = n) ∧
     (∀ n, json_text (raw_user_meta_data new) "name" = None →
           json_text (raw_user_meta_data new) "full_name" = Some n → name = n) ∧
     (json_text (raw_user_meta_data new) "name" = None →
      json_text (raw_user_meta_data new) "full_name" = None →
      name = split_part_first "@" email ∧
      (∀ a b, name ≠ a +:+ "@" +:+ b) ∧
      ∃ rest, email = name +:+ rest ∧ (rest = "" ∨ ∃ rest', rest = "@" +:+ rest'))) ∧
  (∀ row, handle_new_user new (<[new_id new := row]> users) = None) ∧
  (∀ meta id', handle_new_user
                 {| new_id := id'; new_email := None; raw_user_meta_data := meta |}
                 users = None).
Proof.
  intros Hemail Hfresh. split; [|split].
  - unfold handle_new_user, derived_name, coalesce3. rewrite Hemail. simpl.
    destruct (json_text (raw_user_meta_data new) "name") as [n1|] eqn:H1;
      [|destruct (json_text (raw_user_meta_data new) "full_name") as [n2|] eqn:H2];
      simpl; rewrite Hfresh; eexists; (split; [reflexivity|]);
      (split; [reflexivity|]); repeat split; try done; try congruence.
    + apply split_part_first_no_delimiter.
    + apply split_part_first_prefix.
  - intros row. unfold handle_new_user. rewrite Hemail. simpl.
    destruct (derived_name new); simpl; [|done].
    by rewrite lookup_insert_eq.
  - done.
Qed.

(** X24, witness: a signup by email without metadata. *)
Lemma handle_new_user_derives_name_witness :
  handle_new_user
    {| new_id := "user-1"; new_email := Some "ann@example.org";
       raw_user_meta_data := None |} ∅
  = Some {[ "user-1" := {| user_email := "ann@example.org"; user_name := "ann" |} ]}.
Proof.
  destruct (handle_new_user_derives_name
              {| new_id := "user-1"; new_email := Some "ann@example.org";
                 raw_user_meta_data := None |} ∅ "ann@example.org"
              eq_refl (lookup_empty _))
    as ((name & Hrun & _ & _ & _ & Hlocal) & _).
  destruct (Hlocal eq_refl eq_refl) as (-> & _).
  exact Hrun.
Defined.

End SignupFacts.
